(** * Scroll-to-camera timeline of the cinematic scroll experience

    A shallow embedding of the scroll handler, the pause-zone transform, the
    easing and damping helpers and the particle-system frame callback of
    [TheEvents3D], with the properties of their specification.

    JavaScript numbers are IEEE-754 binary64 values.  The program text is
    embedded once, over an abstract number interface [JSNumber], and read at
    two instances:
    - [F64], the kernel's binary64 floats: the arithmetic the program really
      runs, special values ([NaN], infinities) included; definitions compute
      there;
    - [R], the real numbers: rounding-free arithmetic on finite values, in
      which the algebraic properties of the timeline are stated.  A division
      is meaningful there for a non-zero divisor only. *)

From Stdlib Require Import Reals Lra Psatz ZArith List String Bool.
From Stdlib Require Import Floats.
Import ListNotations.

Set Implicit Arguments.

(** ** The number interface *)

Class JSNumber (T : Type) : Type := {
  ofZ : Z -> T;                 (* an integer literal *)
  add : T -> T -> T;
  sub : T -> T -> T;
  mul : T -> T -> T;
  div : T -> T -> T;
  neg : T -> T;
  ltb : T -> T -> bool;         (* a < b *)
  leb : T -> T -> bool;         (* a <= b *)
  Math_min : T -> T -> T;
  Math_max : T -> T -> T;
  Math_abs : T -> T;
  Math_PI : T
}.

Declare Scope js_scope.
Delimit Scope js_scope with js.
Notation "a + b" := (add a b) : js_scope.
Notation "a - b" := (sub a b) : js_scope.
Notation "a * b" := (mul a b) : js_scope.
Notation "a / b" := (div a b) : js_scope.
Notation "- a" := (neg a) : js_scope.
Notation "a <? b" := (ltb a b) : js_scope.
Notation "a <=? b" := (leb a b) : js_scope.
Notation "a >? b" := (ltb b a) (at level 70) : js_scope.
Notation "a >=? b" := (leb b a) (at level 70) : js_scope.

(** A decimal literal [n/d] ([0.015] is [dec 15 1000]).  Binary64 division is
    correctly rounded, so at [F64] this is the double the literal denotes. *)
Definition dec {T} `{JSNumber T} (n d : Z) : T := (ofZ n / ofZ d)%js.

(** [Math.pow(x, n)] for a literal natural exponent. *)
Fixpoint Math_pow {T} `{JSNumber T} (x : T) (n : nat) : T :=
  match n with
  | O => ofZ 1
  | S O => x
  | S m => (x * Math_pow x m)%js
  end.

(** *** Real numbers *)

Definition Rltb (a b : R) : bool := if Rlt_dec a b then true else false.
Definition Rleb (a b : R) : bool := if Rle_dec a b then true else false.

#[export] Instance R_JSNumber : JSNumber R := {
  ofZ := IZR;
  add := Rplus;
  sub := Rminus;
  mul := Rmult;
  div := Rdiv;
  neg := Ropp;
  ltb := Rltb;
  leb := Rleb;
  Math_min := Rmin;
  Math_max := Rmax;
  Math_abs := Rabs;
  Math_PI := PI
}.

(** *** Binary64 *)

Module F64.

Definition ofZ (z : Z) : float :=
  match z with
  | Zneg p => PrimFloat.opp (PrimFloat.of_uint63 (Uint63.of_Z (Zpos p)))
  | _ => PrimFloat.of_uint63 (Uint63.of_Z z)
  end.

(** [Math.min]: [NaN] if either argument is, [-0] below [+0]. *)
Definition min (a b : float) : float :=
  if PrimFloat.is_nan a || PrimFloat.is_nan b then PrimFloat.nan
  else if PrimFloat.ltb a b then a
  else if PrimFloat.ltb b a then b
  else if PrimFloat.get_sign a then a else b.

(** [Math.max]: [NaN] if either argument is, [+0] above [-0]. *)
Definition max (a b : float) : float :=
  if PrimFloat.is_nan a || PrimFloat.is_nan b then PrimFloat.nan
  else if PrimFloat.ltb a b then b
  else if PrimFloat.ltb b a then a
  else if PrimFloat.get_sign a then b else a.

(** [Number.isFinite]. *)
Definition isFinite (a : float) : bool :=
  negb (PrimFloat.is_nan a || PrimFloat.is_infinity a).

End F64.

#[export] Instance F64_JSNumber : JSNumber float := {
  ofZ := F64.ofZ;
  add := PrimFloat.add;
  sub := PrimFloat.sub;
  mul := PrimFloat.mul;
  div := PrimFloat.div;
  neg := PrimFloat.opp;
  ltb := PrimFloat.ltb;
  leb := PrimFloat.leb;
  Math_min := F64.min;
  Math_max := F64.max;
  Math_abs := PrimFloat.abs;
  Math_PI := 0x1.921fb54442d18p+1%float
}.

(** ** The program *)

Section Program.

Local Open Scope string_scope.
Context {T : Type} `{JSNumber T}.
Local Open Scope js_scope.

(** *** Easing functions *)

Definition easeInOutCubic (t : T) : T :=
  if t <? dec 5 10 then ofZ 4 * t * t * t
  else ofZ 1 - Math_pow (ofZ (-2) * t + ofZ 2) 3 / ofZ 2.

Definition easeOutQuart (t : T) : T :=
  ofZ 1 - Math_pow (ofZ 1 - t) 4.

Definition getSceneOpacity (cameraZ sceneZ fadeRange : T) : T :=
  let distance := Math_abs (cameraZ - sceneZ) in
  if distance >? fadeRange then ofZ 0
  else
    let t := ofZ 1 - distance / fadeRange in
    easeOutQuart t.

(** *** Pause zones *)

Record PauseZone : Type := { center : T; pauseAmount : T }.

Definition PAUSE_ZONES : list PauseZone :=
  [ {| center := ofZ 750;  pauseAmount := dec 15 1000 |};
    {| center := ofZ 1750; pauseAmount := dec 15 1000 |};
    {| center := ofZ 2750; pauseAmount := dec 15 1000 |};
    {| center := ofZ 3750; pauseAmount := dec 15 1000 |};
    {| center := ofZ 4750; pauseAmount := dec 15 1000 |};
    {| center := ofZ 5750; pauseAmount := dec 15 1000 |};
    {| center := ofZ 6750; pauseAmount := dec 15 1000 |} ].

(** The value returned from inside a zone's band. *)
Definition zoneValue (zone : PauseZone) (adjustedProgress accumulatedPause : T) : T :=
  let zoneProgressCenter := center zone / ofZ 7000 in
  let pauseStart := zoneProgressCenter - dec 1 100 in
  let pauseEnd := zoneProgressCenter + pauseAmount zone + dec 1 100 in
  let distFromStart := adjustedProgress - accumulatedPause - pauseStart in
  let zoneWidth := pauseEnd - pauseStart in
  if distFromStart <? zoneWidth * dec 3 10 then
    pauseStart + distFromStart * dec 3 10
  else if distFromStart >? zoneWidth * dec 7 10 then
    let exitProgress :=
      (distFromStart - zoneWidth * dec 7 10) / (zoneWidth * dec 3 10) in
    zoneProgressCenter + exitProgress * dec 1 100
  else zoneProgressCenter.

(** The [for (const zone of PAUSE_ZONES)] loop with its early [return] and
    the statement after it. *)
Fixpoint pauseLoop (zones : list PauseZone)
         (adjustedProgress accumulatedPause : T) : T :=
  match zones with
  | [] => Math_min (ofZ 1) (adjustedProgress - accumulatedPause)
  | zone :: rest =>
      let zoneProgressCenter := center zone / ofZ 7000 in
      let pauseStart := zoneProgressCenter - dec 1 100 in
      let pauseEnd := zoneProgressCenter + pauseAmount zone + dec 1 100 in
      if (adjustedProgress - accumulatedPause >=? pauseStart)
         && (adjustedProgress - accumulatedPause <=? pauseEnd)
      then zoneValue zone adjustedProgress accumulatedPause
      else
        pauseLoop rest adjustedProgress
          (if adjustedProgress - accumulatedPause >? pauseEnd
           then accumulatedPause + pauseAmount zone
           else accumulatedPause)
  end.

(** [rawProgress * effectiveScrollRange]. *)
Definition scaledProgress (zones : list PauseZone) (rawProgress : T) : T :=
  let totalPauseAmount :=
    fold_left (fun sum zone => sum + pauseAmount zone) zones (ofZ 0) in
  let effectiveScrollRange := ofZ 1 + totalPauseAmount in
  rawProgress * effectiveScrollRange.

(** [applyScrollPauses] over a given zone table. *)
Definition applyScrollPausesOn (zones : list PauseZone) (rawProgress : T) : T :=
  let adjustedProgress := scaledProgress zones rawProgress in
  pauseLoop zones adjustedProgress (ofZ 0).

Definition applyScrollPauses (rawProgress : T) : T :=
  applyScrollPausesOn PAUSE_ZONES rawProgress.

(** *** Scroll state store and camera controller *)

Record ScrollState : Type := {
  progress : T;
  cameraZ : T;
  currentSection : string;
  velocity : T
}.

(** What [handleScroll] reads of the container: [getBoundingClientRect().top]
    and [offsetHeight]. *)
Record HTMLElement : Type := { rect_top : T; offsetHeight : T }.

(** What the handler reads and does not write: the module variable
    [containerElement] (set by [setContainerRef] at mount and unmount),
    [performance.now()] and [window.innerHeight]. *)
Record Env : Type := {
  containerElement : option HTMLElement;
  performance_now : T;
  innerHeight : T
}.

(** What the handler writes: the shared [scrollState], the module variables
    [lastScrollTime] and [lastProgress], and the controller's target refs. *)
Record World : Type := {
  scrollState : ScrollState;
  lastScrollTime : T;
  lastProgress : T;
  targetZ : T;
  targetY : T;
  targetFov : T;
  targetRotationZ : T
}.

Definition initialWorld : World :=
  {| scrollState :=
       {| progress := ofZ 0; cameraZ := ofZ 0;
          currentSection := "portal"; velocity := ofZ 0 |};
     lastScrollTime := ofZ 0;
     lastProgress := ofZ 0;
     targetZ := ofZ 0;
     targetY := ofZ 0;
     targetFov := ofZ 50;
     targetRotationZ := ofZ 0 |}.

(** The [if (z < 500) ... else ...] chain of [handleScroll]. *)
Definition sectionAt (z : T) : string :=
  if z <? ofZ 500 then "portal"
  else if z <? ofZ 1000 then "eventX"
  else if z <? ofZ 1500 then "vortex"
  else if z <? ofZ 2000 then "battle"
  else if z <? ofZ 2500 then "curtain"
  else if z <? ofZ 3000 then "spotlight"
  else if z <? ofZ 3500 then "paintTunnel"
  else if z <? ofZ 4000 then "mural"
  else if z <? ofZ 4500 then "dollyZoom"
  else if z <? ofZ 5000 then "unveil"
  else if z <? ofZ 5500 then "falling"
  else if z <? ofZ 6000 then "beatTheStreet"
  else if z <? ofZ 6500 then "glitch"
  else "parody".

(** Smooth dolly zoom FOV (Z: 4100-4400). *)
Definition targetFovAt (z : T) : T :=
  if (z >=? ofZ 4100) && (z <=? ofZ 4400) then
    let dollyProgress := easeInOutCubic ((z - ofZ 4100) / ofZ 300) in
    ofZ 50 + ofZ 30 * dollyProgress
  else if (z >? ofZ 4400) && (z <? ofZ 4700) then
    let returnProgress := easeInOutCubic ((z - ofZ 4400) / ofZ 300) in
    ofZ 80 - ofZ 30 * returnProgress
  else ofZ 50.

(** Smooth falling Y movement (Z: 5100-5400). *)
Definition targetYAt (z : T) : T :=
  if (z >=? ofZ 5100) && (z <=? ofZ 5400) then
    let fallProgress := easeInOutCubic ((z - ofZ 5100) / ofZ 300) in
    ofZ (-500) * fallProgress
  else if z >? ofZ 5400 then ofZ (-500)
  else ofZ 0.

(** Smooth glitch spin (Z: 6300-6450). *)
Definition targetRotationZAt (z : T) : T :=
  if (z >=? ofZ 6300) && (z <=? ofZ 6450) then
    let spinProgress := easeInOutCubic ((z - ofZ 6300) / ofZ 150) in
    spinProgress * Math_PI * ofZ 2
  else if (z >? ofZ 6450) && (z <? ofZ 6600) then
    let resetProgress := easeInOutCubic ((z - ofZ 6450) / ofZ 150) in
    Math_PI * ofZ 2 * (ofZ 1 - resetProgress)
  else ofZ 0.

Definition rawProgressOf (el : HTMLElement) (viewportHeight : T) : T :=
  let containerHeight := offsetHeight el in
  let scrollableDistance := containerHeight - viewportHeight in
  let scrolled := - rect_top el in
  Math_max (ofZ 0) (Math_min (ofZ 1) (scrolled / scrollableDistance)).

Definition handleScroll (env : Env) (w : World) : World :=
  match containerElement env with
  | None => w
  | Some el =>
      let now := performance_now env in
      let rawProgress := rawProgressOf el (innerHeight env) in
      let progress' := applyScrollPauses rawProgress in
      let deltaTime := (now - lastScrollTime w) / ofZ 1000 in
      let velocity' :=
        if deltaTime >? ofZ 0
        then (progress' - lastProgress w) / deltaTime
        else ofZ 0 in
      let z := progress' * ofZ 7000 in
      {| scrollState :=
           {| progress := progress';
              cameraZ := z;
              currentSection := sectionAt z;
              velocity := velocity' |};
         lastScrollTime := now;
         lastProgress := progress';
         targetZ := z;
         targetY := targetYAt z;
         targetFov := targetFovAt z;
         targetRotationZ := targetRotationZAt z |}
  end.

(** The environment of an invocation with the container mounted: its
    [getBoundingClientRect().top] and [offsetHeight], the viewport height and
    the clock, all integers. *)
Definition mountedEnv (top height viewportHeight now : Z) : Env :=
  {| containerElement :=
       Some {| rect_top := ofZ top; offsetHeight := ofZ height |};
     performance_now := ofZ now;
     innerHeight := ofZ viewportHeight |}.

(** The environment of an invocation after [setContainerRef(null)]. *)
Definition unmountedEnv (viewportHeight now : Z) : Env :=
  {| containerElement := None;
     performance_now := ofZ now;
     innerHeight := ofZ viewportHeight |}.

End Program.

Arguments PauseZone : clear implicits.
Arguments ScrollState : clear implicits.
Arguments HTMLElement : clear implicits.
Arguments Env : clear implicits.
Arguments World : clear implicits.

(** *** The damping helper with its exponential as a parameter

    [Math.exp] is implementation-approximated; the text of [smoothDamp] is
    given here for any number instance and any exponential on it.  Over [R]
    with the real exponential it is [smoothDamp] below; over [F64] it is what
    the program computes once the engine's [Math.exp] is put in. *)
Definition smoothDampWith {T} `{JSNumber T} (Math_exp : T -> T)
           (current target smoothing delta : T) : T :=
  let factor := (ofZ 1 - Math_exp (- smoothing * delta * ofZ 60))%js in
  (current + (target - current) * factor)%js.

(** *** Damping and the particle system

    [Math.exp] is the real exponential; these definitions are read over [R]
    only (the kernel's floats have no exponential). *)

Section Frame.

Local Open Scope R_scope.

(** Smooth lerp helper with frame-rate independence. *)
Definition smoothDamp (current target smoothing delta : R) : R :=
  let factor := 1 - exp (- smoothing * delta * 60) in
  current + (target - current) * factor.

Record Vector3 : Type := { vx : R; vy : R; vz : R }.

Record Particle : Type := {
  position : Vector3;
  pvelocity : Vector3;
  scale : R
}.

(** The 16 elements of a [THREE.Matrix4], column-major. *)
Definition Matrix4 : Type := list R.

(** [dummy.updateMatrix()] for a [dummy] whose rotation is never touched:
    [compose(position, identity quaternion, scale)]. *)
Definition dummyMatrix (p : Vector3) (s : R) : Matrix4 :=
  [ s; 0; 0; 0;
    0; s; 0; 0;
    0; 0; s; 0;
    vx p; vy p; vz p; 1 ].

Record InstancedMesh : Type := {
  visible : bool;
  instanceMatrices : list Matrix4;
  needsUpdate : bool
}.

Record Material : Type := { opacity : R }.

Record ParticleSystemProps : Type := {
  count : nat;
  size : R;
  zStart : R;
  zEnd : R;
  spread : R;
  speed : R;
  baseOpacity : R
}.

(** The refs and memoised values of one mounted [ParticleSystem]. *)
Record ParticleSystemState : Type := {
  meshRef : option InstancedMesh;
  materialRef : option Material;
  currentOpacity : R;
  particles : list Particle
}.

(** [mesh.setMatrixAt(i, m)]: a write into the instance buffer; an index past
    its end writes nothing. *)
Fixpoint setMatrixAt (i : nat) (m : Matrix4) (buf : list Matrix4) : list Matrix4 :=
  match buf, i with
  | [], _ => []
  | _ :: rest, O => m :: rest
  | m0 :: rest, S j => m0 :: setMatrixAt j m rest
  end.

(** One iteration of the [particles.forEach] body, up to the wrap-around. *)
Definition stepParticle (spread delta : R) (p : Particle) : Particle :=
  let x1 := vx (position p) + vx (pvelocity p) * delta in
  let y1 := vy (position p) + vy (pvelocity p) * delta in
  let z1 := vz (position p) + vz (pvelocity p) * delta in
  let x2 := if Rltb (spread / 2) x1 then - spread / 2 else x1 in
  let x3 := if Rltb x2 (- spread / 2) then spread / 2 else x2 in
  let y2 := if Rltb (spread / 2) y1 then - spread / 2 else y1 in
  let y3 := if Rltb y2 (- spread / 2) then spread / 2 else y2 in
  {| position := {| vx := x3; vy := y3; vz := z1 |};
     pvelocity := pvelocity p;
     scale := scale p |}.

(** [particles.forEach((particle, i) => ...)] from index [i] on: the moved
    particles and the instance buffer after the writes. *)
Fixpoint forEachParticle (props : ParticleSystemProps) (delta : R) (i : nat)
         (ps : list Particle) (buf : list Matrix4)
  : list Particle * list Matrix4 :=
  match ps with
  | [] => ([], buf)
  | particle :: rest =>
      let particle' := stepParticle (spread props) delta particle in
      let buf' :=
        setMatrixAt i
          (dummyMatrix (position particle') (scale particle' * size props)) buf in
      let (rest', buf'') := forEachParticle props delta (S i) rest buf' in
      (particle' :: rest', buf'')
  end.

Definition particleTargetOpacity (props : ParticleSystemProps) (cameraZ : R) : R :=
  let centerZ := (zStart props + zEnd props) / 2 in
  let range := (zEnd props - zStart props) / 2 + 400 in
  let distance := Rabs (cameraZ - centerZ) in
  if Rltb distance range
  then baseOpacity props * easeOutQuart (1 - distance / range)
  else 0.

(** The [useFrame] callback of [ParticleSystem]; [cameraZ] is
    [camera.position.z]. *)
Definition particleFrame (props : ParticleSystemProps) (cameraZ delta : R)
           (st : ParticleSystemState) : ParticleSystemState :=
  match meshRef st, materialRef st with
  | Some mesh, Some material =>
      let targetOpacity := particleTargetOpacity props cameraZ in
      let opacity' := smoothDamp (currentOpacity st) targetOpacity (1 / 10) delta in
      let visible' := Rltb (1 / 100) opacity' in
      if negb visible' then
        {| meshRef := Some {| visible := visible';
                              instanceMatrices := instanceMatrices mesh;
                              needsUpdate := needsUpdate mesh |};
           materialRef := Some {| opacity := opacity' |};
           currentOpacity := opacity';
           particles := particles st |}
      else
        let (particles', buf') :=
          forEachParticle props delta 0 (particles st) (instanceMatrices mesh) in
        {| meshRef := Some {| visible := visible';
                              instanceMatrices := buf';
                              needsUpdate := true |};
           materialRef := Some {| opacity := opacity' |};
           currentOpacity := opacity';
           particles := particles' |}
  | _, _ => st
  end.

(** A particle inside the box the wrap-around keeps it in. *)
Definition inBox (spread : R) (p : Particle) : Prop :=
  - spread / 2 <= vx (position p) <= spread / 2
  /\ - spread / 2 <= vy (position p) <= spread / 2.

(** The instance matrix [forEach] writes for a particle. *)
Definition matrixOfParticle (size : R) (p : Particle) : Matrix4 :=
  dummyMatrix (position p) (scale p * size).

(** A mounted one-particle system at full opacity, its particle about to
    cross the right face of the box, for checking statements on. *)
Definition sampleProps : ParticleSystemProps :=
  {| count := 1; size := 2; zStart := 0; zEnd := 100;
     spread := 500; speed := 1 / 2; baseOpacity := 6 / 10 |}.

Definition sampleParticle : Particle :=
  {| position := {| vx := 240; vy := 20; vz := 50 |};
     pvelocity := {| vx := 1200; vy := - 1 / 4; vz := 1 / 8 |};
     scale := 1 |}.

Definition sampleMesh : InstancedMesh :=
  {| visible := true;
     instanceMatrices := [ matrixOfParticle 2 sampleParticle ];
     needsUpdate := false |}.

Definition sampleParticleState : ParticleSystemState :=
  {| meshRef := Some sampleMesh;
     materialRef := Some {| opacity := 6 / 10 |};
     currentOpacity := 6 / 10;
     particles := [ sampleParticle ] |}.

End Frame.

(** *** The camera controller's frame callback *)

Section Controller.

Local Open Scope R_scope.

(** What the frame callback writes of the camera: [position.z], [position.y],
    [rotation.z], [fov], and the field of view its projection matrix was last
    computed for ([updateProjectionMatrix]).  [isPerspective] is
    [camera instanceof THREE.PerspectiveCamera]. *)
Record Camera : Type := {
  position_z : R;
  position_y : R;
  rotation_z : R;
  fov : R;
  projectionFov : R;
  isPerspective : bool
}.

(** The [current*] refs of [CameraController] and the camera it drives. *)
Record Rig : Type := {
  currentZ : R;
  currentY : R;
  currentFov : R;
  currentRotationZ : R;
  camera : Camera
}.

(** The refs at mount and the camera the [Canvas] creates
    ([position: [0, 0, 0], fov: 50]). *)
Definition initialRig : Rig :=
  {| currentZ := 0; currentY := 0; currentFov := 50; currentRotationZ := 0;
     camera := {| position_z := 0; position_y := 0; rotation_z := 0;
                  fov := 50; projectionFov := 50; isPerspective := true |} |}.

(** The [useFrame] callback of [CameraController]: it reads the targets the
    scroll handler wrote. *)
Definition cameraFrame (delta : R) (w : World R) (rig : Rig) : Rig :=
  let smoothing := 8 / 100 in
  let rotationSmoothing := 6 / 100 in
  let fovSmoothing := 4 / 100 in
  let zLerp := 1 - exp (- smoothing * delta * 60) in
  let yLerp := 1 - exp (- smoothing * (7 / 10) * delta * 60) in
  let rotLerp := 1 - exp (- rotationSmoothing * delta * 60) in
  let fovLerp := 1 - exp (- fovSmoothing * delta * 60) in
  let z' := currentZ rig + (targetZ w - currentZ rig) * zLerp in
  let y' := currentY rig + (targetY w - currentY rig) * yLerp in
  let rot' :=
    currentRotationZ rig + (targetRotationZ w - currentRotationZ rig) * rotLerp in
  let fov' := currentFov rig + (targetFov w - currentFov rig) * fovLerp in
  let cam := camera rig in
  {| currentZ := z';
     currentY := y';
     currentFov := fov';
     currentRotationZ := rot';
     camera :=
       {| position_z := z';
          position_y := y';
          rotation_z := rot';
          fov := if isPerspective cam then fov' else fov cam;
          projectionFov := if isPerspective cam then fov' else projectionFov cam;
          isPerspective := isPerspective cam |} |}.

(** The two callbacks of the controller, as the browser interleaves them. *)
Inductive Event : Type :=
| ScrollEvent (env : Env R)
| FrameEvent (delta : R).

Record System : Type := { world : World R; rig : Rig }.

Definition initialSystem : System :=
  {| world := initialWorld; rig := initialRig |}.

Definition step (s : System) (ev : Event) : System :=
  match ev with
  | ScrollEvent env => {| world := handleScroll env (world s); rig := rig s |}
  | FrameEvent delta => {| world := world s; rig := cameraFrame delta (world s) (rig s) |}
  end.

Definition run (events : list Event) (s : System) : System :=
  fold_left step events s.

(** An event the real-number reading covers: a scroll event with the
    container unmounted or with a non-zero scrollable distance, a frame with
    a non-negative elapsed time. *)
Definition eventOk (ev : Event) : Prop :=
  match ev with
  | ScrollEvent env =>
      match containerElement env with
      | None => True
      | Some el => offsetHeight el - innerHeight env <> 0
      end
  | FrameEvent delta => 0 <= delta
  end.

(** The envelope of the timeline: depth in [[0, 7000]], Y in [[-500, 0]], FOV
    in [[50, 80]], roll in [[0, 2 pi]]. *)
Definition inEnvelope (z y f rot : R) : Prop :=
  0 <= z <= 7000 /\ -500 <= y <= 0 /\ 50 <= f <= 80 /\ 0 <= rot <= 2 * PI.

(** The camera shows what the refs hold; the field of view and the projection
    matrix only for a perspective camera. *)
Definition cameraMirrorsRefs (r : Rig) : Prop :=
  position_z (camera r) = currentZ r
  /\ position_y (camera r) = currentY r
  /\ rotation_z (camera r) = currentRotationZ r
  /\ (isPerspective (camera r) = true ->
      fov (camera r) = currentFov r /\ projectionFov (camera r) = currentFov r).

(** [n] frames of [smoothDamp] toward a fixed target, each fed the previous
    result (what every [useFrame] of this file does with its ref). *)
Fixpoint dampFrames (n : nat) (current target smoothing delta : R) : R :=
  match n with
  | O => current
  | S m => dampFrames m (smoothDamp current target smoothing delta)
             target smoothing delta
  end.

End Controller.

(** *** Fade groups and the intro scene *)

Section Fades.

Local Open Scope R_scope.

(** A material as [FadeGroup] sees it: its [opacity] and
    [userData.baseOpacity] ([None] when the key is absent).  Every
    [THREE.Material] has an [opacity], so ["opacity" in material] holds. *)
Record FadeMaterial : Type := {
  fade_opacity : R;
  userData_baseOpacity : option R
}.

(** A node of the scene graph: [Some m] for a [THREE.Mesh] with material [m],
    [None] for any other object, and its children. *)
Unset Elimination Schemes.
Inductive Object3D : Type :=
| Node (mesh : option FadeMaterial) (children : list Object3D).
Set Elimination Schemes.

(** Induction over the scene graph, with the property known of every child. *)
Fixpoint Object3D_children_ind (P : Object3D -> Prop)
         (step : forall mesh children,
             Forall P children -> P (Node mesh children))
         (o : Object3D) : P o :=
  match o with
  | Node mesh children =>
      step mesh children
        ((fix all (l : list Object3D) : Forall P l :=
            match l with
            | [] => Forall_nil P
            | c :: cs =>
                Forall_cons c (Object3D_children_ind step c) (all cs)
            end) children)
  end.

(** [material.userData.baseOpacity || 1]: an absent key and 0 are falsy. *)
Definition baseOpacityOr1 (m : FadeMaterial) : R :=
  match userData_baseOpacity m with
  | None => 1
  | Some b => if Req_dec_T b 0 then 1 else b
  end.

(** The callback [FadeGroup] passes to [traverse]. *)
Definition fadeMaterial (currentOpacity : R) (m : FadeMaterial) : FadeMaterial :=
  {| fade_opacity := baseOpacityOr1 m * currentOpacity;
     userData_baseOpacity := userData_baseOpacity m |}.

(** [object.traverse(callback)]: the object, then its children, recursively. *)
Fixpoint fadeTraverse (currentOpacity : R) (o : Object3D) : Object3D :=
  match o with
  | Node mesh children =>
      Node (option_map (fadeMaterial currentOpacity) mesh)
           (List.map (fadeTraverse currentOpacity) children)
  end.

(** The materials of the meshes of a subtree, in traversal order. *)
Fixpoint materialsOf (o : Object3D) : list FadeMaterial :=
  match o with
  | Node mesh children =>
      (match mesh with Some m => [m] | None => [] end
       ++ List.flat_map materialsOf children)%list
  end.

Record FadeGroupObject : Type := {
  fade_visible : bool;
  fade_root : Object3D
}.

Record FadeGroupState : Type := {
  groupRef : option FadeGroupObject;
  fadeOpacity : R          (* the [currentOpacity] ref *)
}.

(** The [useFrame] callback of [FadeGroup]. *)
Definition fadeGroupFrame (sceneZ fadeRange cameraZ delta : R)
           (st : FadeGroupState) : FadeGroupState :=
  match groupRef st with
  | None => st
  | Some group =>
      let targetOpacity := getSceneOpacity cameraZ sceneZ fadeRange in
      let opacity' := smoothDamp (fadeOpacity st) targetOpacity (12 / 100) delta in
      {| groupRef :=
           Some {| fade_visible := Rltb (1 / 100) opacity';
                   fade_root := fadeTraverse opacity' (fade_root group) |};
         fadeOpacity := opacity' |}
  end.

(** The target opacity of [IntroScene]: visible at the start, fading out
    toward the portal. *)
Definition introTargetOpacity (cameraZ : R) : R :=
  if Rltb cameraZ 300 then 1 - easeOutQuart (cameraZ / 300) else 0.

(** A mounted group with a title mesh (base opacity 0.4), a mesh whose base
    opacity is 0 and a nested plain mesh, for checking statements on. *)
Definition sampleFadeGroup : FadeGroupState :=
  {| groupRef :=
       Some {| fade_visible := false;
               fade_root :=
                 Node None
                   [ Node (Some {| fade_opacity := 4 / 10;
                                   userData_baseOpacity := Some (4 / 10) |}) [];
                     Node (Some {| fade_opacity := 0;
                                   userData_baseOpacity := Some 0 |})
                       [ Node (Some {| fade_opacity := 1;
                                       userData_baseOpacity := None |}) [] ] ] |};
     fadeOpacity := 0 |}.

End Fades.

(** *** Curtain layers *)

Section Curtains.

Local Open Scope R_scope.

Record CurtainLayer : Type := {
  layer_z : R;
  direction : R;
  openProgress : R;
  currentX : R;
  currentRotation : R;
  layerOpacity : R          (* the layer's [currentOpacity] *)
}.

(** What the callback writes of a layer's mesh. *)
Record CurtainMesh : Type := {
  mesh_position_x : R;
  mesh_rotation_y : R;
  mesh_opacity : R
}.

Record CurtainGroup : Type := {
  group_visible : bool;
  group_children : list CurtainMesh
}.

Record CurtainState : Type := {
  layersRef : option CurtainGroup;
  layerData : list CurtainLayer
}.

(** [[2100, ..., 2600].map((z, i) => ...)] from index [i] on. *)
Fixpoint makeLayers (i : nat) (zs : list R) : list CurtainLayer :=
  match zs with
  | [] => []
  | z :: rest =>
      {| layer_z := z;
         direction := if Nat.even i then -1 else 1;
         openProgress := 0;
         currentX := 0;
         currentRotation := 0;
         layerOpacity := 3 / 10 |} :: makeLayers (S i) rest
  end.

Definition initialLayerData : list CurtainLayer :=
  makeLayers 0 [2100; 2200; 2300; 2400; 2500; 2600].

(** The body of [children.forEach((child, i) => ...)] for one layer. *)
Definition stepLayer (cameraZ delta : R) (layer : CurtainLayer)
  : CurtainLayer * CurtainMesh :=
  let distanceToLayer := layer_z layer - cameraZ in
  let targetOpen :=
    if Rltb distanceToLayer 120 && Rltb (-150) distanceToLayer then 1 else 0 in
  let openProgress' := smoothDamp (openProgress layer) targetOpen (6 / 100) delta in
  let targetX := direction layer * openProgress' * 600 in
  let targetRotation := direction layer * openProgress' * (2 / 10) in
  let currentX' := smoothDamp (currentX layer) targetX (1 / 10) delta in
  let currentRotation' :=
    smoothDamp (currentRotation layer) targetRotation (1 / 10) delta in
  let targetOpacity := (3 / 10) * (1 - openProgress' * (7 / 10)) in
  let opacity' := smoothDamp (layerOpacity layer) targetOpacity (1 / 10) delta in
  ({| layer_z := layer_z layer;
      direction := direction layer;
      openProgress := openProgress';
      currentX := currentX';
      currentRotation := currentRotation';
      layerOpacity := opacity' |},
   {| mesh_position_x := currentX';
      mesh_rotation_y := currentRotation';
      mesh_opacity := opacity' |}).

(** [children.forEach((child, i) => { const layer = layerData.current[i]; ... })]:
    child [i] is paired with layer [i]; a child with no layer makes
    [layer.z] throw a [TypeError] ([None]); layers past the last child are
    left alone. *)
Fixpoint forEachLayer (cameraZ delta : R)
         (children : list CurtainMesh) (layers : list CurtainLayer)
  : option (list CurtainMesh * list CurtainLayer) :=
  match children, layers with
  | [], _ => Some ([], layers)
  | _ :: _, [] => None
  | _ :: children', layer :: layers' =>
      let (layer', child') := stepLayer cameraZ delta layer in
      match forEachLayer cameraZ delta children' layers' with
      | None => None
      | Some (cs, ls) => Some (child' :: cs, layer' :: ls)
      end
  end.

(** The [useFrame] callback of [CurtainLayers]; [None] when it throws. *)
Definition curtainFrame (cameraZ delta : R) (st : CurtainState)
  : option CurtainState :=
  match layersRef st with
  | None => Some st
  | Some group =>
      if Rltb cameraZ 1900 || Rltb 2800 cameraZ then
        Some {| layersRef :=
                  Some {| group_visible := false;
                          group_children := group_children group |};
                layerData := layerData st |}
      else
        match forEachLayer cameraZ delta (group_children group) (layerData st) with
        | None => None
        | Some (cs, ls) =>
            Some {| layersRef :=
                      Some {| group_visible := true; group_children := cs |};
                    layerData := ls |}
        end
  end.

(** A layer inside its design envelope: it opens toward its own side by at
    most 600 units and 0.2 radians, and its opacity stays between 0.09 and
    0.3. *)
Definition layerOk (layer : CurtainLayer) : Prop :=
  (direction layer = -1 \/ direction layer = 1)
  /\ 0 <= openProgress layer <= 1
  /\ 0 <= direction layer * currentX layer <= 600
  /\ 0 <= direction layer * currentRotation layer <= 2 / 10
  /\ 9 / 100 <= layerOpacity layer <= 3 / 10.

(** What a layer's mesh shows of it. *)
Definition meshOfLayer (layer : CurtainLayer) : CurtainMesh :=
  {| mesh_position_x := currentX layer;
     mesh_rotation_y := currentRotation layer;
     mesh_opacity := layerOpacity layer |}.

(** The component just after mount: six closed layers and their meshes. *)
Definition mountedCurtains : CurtainState :=
  {| layersRef :=
       Some {| group_visible := true;
               group_children := List.map meshOfLayer initialLayerData |};
     layerData := initialLayerData |}.

End Curtains.

(** *** The section table, for statements about the order of sections *)

Definition SECTIONS : list string :=
  [ "portal"; "eventX"; "vortex"; "battle"; "curtain"; "spotlight";
    "paintTunnel"; "mural"; "dollyZoom"; "unveil"; "falling";
    "beatTheStreet"; "glitch"; "parody" ]%string.

(** Position of a name in a table (its length if absent). *)
Fixpoint indexOf (name : string) (table : list string) : nat :=
  match table with
  | [] => O
  | s :: rest => if String.eqb name s then O else S (indexOf name rest)
  end.

(** The section the handler stores for a raw progress value. *)
Definition sectionOfRaw {T} `{JSNumber T} (rawProgress : T) : string :=
  sectionAt (applyScrollPauses rawProgress * ofZ 7000)%js.

(** *** Vocabulary for the pause zones, over the reals *)

Unset Implicit Arguments.
Local Open Scope R_scope.

(** The band of a zone, as the loop computes it. *)
Definition zoneProgressCenter (zone : PauseZone R) : R := center zone / 7000.
Definition pauseStart (zone : PauseZone R) : R := zoneProgressCenter zone - 1 / 100.
Definition pauseEnd (zone : PauseZone R) : R :=
  zoneProgressCenter zone + pauseAmount zone + 1 / 100.

(** A zone the monotonicity argument accepts: its band is at most [0.11]
    wide, so the entering ramp ends below the centre, and its exit value
    [zoneProgressCenter + 0.01] is a progress value. *)
Definition zoneOk (zone : PauseZone R) : Prop :=
  0 <= pauseAmount zone <= 9 / 100 /\ zoneProgressCenter zone + 1 / 100 <= 1.

(** A zone list in ascending order with disjoint bands, all starting at or
    after [lo]. *)
Fixpoint zonesOk (lo : R) (zones : list (PauseZone R)) : Prop :=
  match zones with
  | [] => True
  | zone :: rest =>
      lo <= pauseStart zone /\ zoneOk zone /\
      zonesOk (zoneProgressCenter zone + 1 / 100) rest
  end.

(** * Properties *)

(** ** Comparisons over the reals *)

Lemma Rltb_true (a b : R) : a < b -> Rltb a b = true.
Proof. unfold Rltb; destruct (Rlt_dec a b); [reflexivity | contradiction]. Qed.

Lemma Rltb_false (a b : R) : b <= a -> Rltb a b = false.
Proof. unfold Rltb; destruct (Rlt_dec a b); [lra | reflexivity]. Qed.

Lemma Rleb_true (a b : R) : a <= b -> Rleb a b = true.
Proof. unfold Rleb; destruct (Rle_dec a b); [reflexivity | contradiction]. Qed.

Lemma Rleb_false (a b : R) : b < a -> Rleb a b = false.
Proof. unfold Rleb; destruct (Rle_dec a b); [lra | reflexivity]. Qed.

Lemma Rltb_cases (a b : R) :
  (a < b /\ Rltb a b = true) \/ (b <= a /\ Rltb a b = false).
Proof.
  destruct (Rlt_le_dec a b) as [Hlt | Hle].
  - left; split; [assumption | now apply Rltb_true].
  - right; split; [assumption | now apply Rltb_false].
Qed.

Lemma Rleb_cases (a b : R) :
  (a <= b /\ Rleb a b = true) \/ (b < a /\ Rleb a b = false).
Proof.
  destruct (Rle_lt_dec a b) as [Hle | Hlt].
  - left; split; [assumption | now apply Rleb_true].
  - right; split; [assumption | now apply Rleb_false].
Qed.

(** Unfold the number interface at [R]. *)
Ltac js_real :=
  cbn [ofZ add sub mul div neg ltb leb Math_min Math_max Math_abs Math_PI
       R_JSNumber dec Math_pow center pauseAmount] in *.

(** Decide one comparison of the goal by linear arithmetic. *)
Ltac decide_cmp :=
  match goal with
  | |- context [Rltb ?a ?b] =>
      first [ rewrite (Rltb_true a b) by lra | rewrite (Rltb_false a b) by lra ]
  | |- context [Rleb ?a ?b] =>
      first [ rewrite (Rleb_true a b) by lra | rewrite (Rleb_false a b) by lra ]
  end.

(** Split on one comparison of the goal. *)
Ltac split_cmp :=
  match goal with
  | |- context [Rltb ?a ?b] =>
      let H := fresh "Hc" in let E := fresh "Ec" in
      destruct (Rltb_cases a b) as [[H E] | [H E]]; rewrite E
  | |- context [Rleb ?a ?b] =>
      let H := fresh "Hc" in let E := fresh "Ec" in
      destruct (Rleb_cases a b) as [[H E] | [H E]]; rewrite E
  end.

(** ** The pause-zone transform over the reals *)

Lemma pauseLoop_before zone rest adj acc :
  pauseStart zone <= pauseEnd zone ->
  adj - acc < pauseStart zone ->
  pauseLoop (zone :: rest) adj acc = pauseLoop rest adj acc.
Proof.
  unfold pauseStart, pauseEnd, zoneProgressCenter; intros Hw Hlt.
  cbn [pauseLoop]; js_real.
  rewrite (Rleb_false _ (adj - acc)) by lra. cbn [andb].
  rewrite Rltb_false by lra. reflexivity.
Qed.

Lemma pauseLoop_after zone rest adj acc :
  pauseEnd zone < adj - acc ->
  pauseLoop (zone :: rest) adj acc = pauseLoop rest adj (acc + pauseAmount zone).
Proof.
  unfold pauseEnd, zoneProgressCenter; intros Hlt.
  cbn [pauseLoop]; js_real.
  rewrite (Rleb_false (adj - acc)) by lra. rewrite andb_false_r.
  rewrite Rltb_true by lra. reflexivity.
Qed.

Lemma pauseLoop_inside zone rest adj acc :
  pauseStart zone <= adj - acc <= pauseEnd zone ->
  pauseLoop (zone :: rest) adj acc = zoneValue zone adj acc.
Proof.
  unfold pauseStart, pauseEnd, zoneProgressCenter; intros [Hlo Hhi].
  cbn [pauseLoop]; js_real.
  rewrite !Rleb_true by lra. reflexivity.
Qed.

(** The three sub-bands of a zone, by distance from [pauseStart]. *)
Lemma zoneValue_entering zone adj acc :
  adj - acc - pauseStart zone < (pauseEnd zone - pauseStart zone) * (3 / 10) ->
  zoneValue zone adj acc
  = pauseStart zone + (adj - acc - pauseStart zone) * (3 / 10).
Proof.
  unfold pauseStart, pauseEnd, zoneProgressCenter; intros Hd.
  unfold zoneValue; js_real.
  rewrite Rltb_true by lra. reflexivity.
Qed.

Lemma zoneValue_holding zone adj acc :
  (pauseEnd zone - pauseStart zone) * (3 / 10) <= adj - acc - pauseStart zone ->
  adj - acc - pauseStart zone <= (pauseEnd zone - pauseStart zone) * (7 / 10) ->
  zoneValue zone adj acc = zoneProgressCenter zone.
Proof.
  unfold pauseStart, pauseEnd, zoneProgressCenter; intros Hlo Hhi.
  unfold zoneValue; js_real.
  rewrite !Rltb_false by lra. reflexivity.
Qed.

Lemma zoneValue_exiting zone adj acc :
  (pauseEnd zone - pauseStart zone) * (7 / 10) < adj - acc - pauseStart zone ->
  0 <= pauseEnd zone - pauseStart zone ->
  zoneValue zone adj acc
  = zoneProgressCenter zone
    + (adj - acc - pauseStart zone - (pauseEnd zone - pauseStart zone) * (7 / 10))
      / ((pauseEnd zone - pauseStart zone) * (3 / 10)) * (1 / 100).
Proof.
  unfold pauseStart, pauseEnd, zoneProgressCenter; intros Hd Hw.
  unfold zoneValue; js_real.
  rewrite Rltb_false by lra. rewrite Rltb_true by lra. reflexivity.
Qed.

Lemma zonesOk_weaken zones : forall lo lo',
  lo' <= lo -> zonesOk lo zones -> zonesOk lo' zones.
Proof.
  destruct zones as [| zone rest]; cbn; intros lo lo' Hle H; [exact I | ].
  destruct H as (H1 & H2 & H3). repeat split; try apply H2; try assumption; lra.
Qed.

Lemma Rdiv_unit_interval (n q : R) :
  0 < q -> 0 <= n <= q -> 0 <= n / q <= 1.
Proof.
  intros Hq [Hn0 Hn1]. split.
  - apply Rle_mult_inv_pos; assumption.
  - apply (Rmult_le_reg_r q); [assumption | ].
    unfold Rdiv. rewrite Rmult_assoc, Rinv_l by lra. lra.
Qed.

Lemma Rdiv_le_mono (n1 n2 q : R) :
  0 < q -> n1 <= n2 -> n1 / q <= n2 / q.
Proof.
  intros Hq Hn. unfold Rdiv. apply Rmult_le_compat_r; [ | assumption].
  left. now apply Rinv_0_lt_compat.
Qed.

(** The value returned from a band, in closed form on its three sub-bands. *)
Lemma zoneValue_cases zone adj acc :
  0 <= pauseAmount zone ->
  let d := adj - acc - pauseStart zone in
  let w := pauseEnd zone - pauseStart zone in
  (d < w * (3 / 10) /\ zoneValue zone adj acc = pauseStart zone + d * (3 / 10))
  \/ (w * (3 / 10) <= d <= w * (7 / 10)
      /\ zoneValue zone adj acc = zoneProgressCenter zone)
  \/ (w * (7 / 10) < d
      /\ zoneValue zone adj acc
         = zoneProgressCenter zone + (d - w * (7 / 10)) / (w * (3 / 10)) * (1 / 100)).
Proof.
  intros Hpa d w.
  assert (Hw : 0 <= pauseEnd zone - pauseStart zone)
    by (unfold pauseEnd, pauseStart; lra).
  destruct (Rlt_le_dec d (w * (3 / 10))) as [H1 | H1].
  - left. split; [assumption | now apply zoneValue_entering].
  - right. destruct (Rle_lt_dec d (w * (7 / 10))) as [H2 | H2].
    + left. split; [split; assumption | now apply zoneValue_holding].
    + right. split; [assumption | now apply zoneValue_exiting].
Qed.

Lemma zoneValue_bounds zone adj acc :
  zoneOk zone ->
  pauseStart zone <= adj - acc <= pauseEnd zone ->
  pauseStart zone <= zoneValue zone adj acc <= zoneProgressCenter zone + 1 / 100.
Proof.
  intros [[Hpa0 Hpa1] _] [Hlo Hhi].
  assert (Hw : pauseEnd zone - pauseStart zone = pauseAmount zone + 2 / 100)
    by (unfold pauseEnd, pauseStart; lra).
  assert (Hps : pauseStart zone = zoneProgressCenter zone - 1 / 100) by reflexivity.
  destruct (zoneValue_cases zone adj acc Hpa0) as [[Hd E] | [[Hd E] | [Hd E]]];
    rewrite E; clear E.
  - lra.
  - lra.
  - set (q := (pauseEnd zone - pauseStart zone) * (3 / 10)) in *.
    set (n := adj - acc - pauseStart zone
              - (pauseEnd zone - pauseStart zone) * (7 / 10)) in *.
    assert (Hq : 0 < q) by (unfold q; lra).
    assert (Hn : 0 <= n <= q) by (unfold n, q; lra).
    pose proof (Rdiv_unit_interval n q Hq Hn). lra.
Qed.

Lemma zoneValue_mono zone adj1 adj2 acc :
  zoneOk zone ->
  pauseStart zone <= adj1 - acc ->
  adj1 <= adj2 ->
  adj2 - acc <= pauseEnd zone ->
  zoneValue zone adj1 acc <= zoneValue zone adj2 acc.
Proof.
  intros [[Hpa0 Hpa1] _] Hlo Hle Hhi.
  assert (Hw : pauseEnd zone - pauseStart zone = pauseAmount zone + 2 / 100)
    by (unfold pauseEnd, pauseStart; lra).
  assert (Hps : pauseStart zone = zoneProgressCenter zone - 1 / 100) by reflexivity.
  set (q := (pauseEnd zone - pauseStart zone) * (3 / 10)).
  assert (Hq : 0 < q) by (unfold q; lra).
  destruct (zoneValue_cases zone adj1 acc Hpa0) as [[Hd1 E1] | [[Hd1 E1] | [Hd1 E1]]];
    destruct (zoneValue_cases zone adj2 acc Hpa0) as [[Hd2 E2] | [[Hd2 E2] | [Hd2 E2]]];
    rewrite E1, E2; clear E1 E2; try lra.
  - (* entering, then exiting *)
    set (n2 := adj2 - acc - pauseStart zone
               - (pauseEnd zone - pauseStart zone) * (7 / 10)).
    assert (Hn2 : 0 <= n2 <= q) by (unfold n2, q; lra).
    pose proof (Rdiv_unit_interval n2 q Hq Hn2). fold q. lra.
  - (* holding, then exiting *)
    set (n2 := adj2 - acc - pauseStart zone
               - (pauseEnd zone - pauseStart zone) * (7 / 10)).
    assert (Hn2 : 0 <= n2 <= q) by (unfold n2, q; lra).
    pose proof (Rdiv_unit_interval n2 q Hq Hn2). fold q. lra.
  - (* both exiting *)
    fold q.
    set (n1 := adj1 - acc - pauseStart zone
               - (pauseEnd zone - pauseStart zone) * (7 / 10)).
    set (n2 := adj2 - acc - pauseStart zone
               - (pauseEnd zone - pauseStart zone) * (7 / 10)).
    assert (Hn : n1 <= n2) by (unfold n1, n2; lra).
    pose proof (Rdiv_le_mono n1 n2 q Hq Hn). lra.
Qed.

(** Where a value stands relative to a zone's band. *)
Lemma zone_position zone (x : R) :
  x < pauseStart zone \/ pauseStart zone <= x <= pauseEnd zone \/ pauseEnd zone < x.
Proof.
  destruct (Rlt_le_dec x (pauseStart zone)); [now left | right].
  destruct (Rle_lt_dec x (pauseEnd zone)); [left; split; assumption | now right].
Qed.

Lemma zoneOk_band zone : zoneOk zone -> pauseStart zone <= pauseEnd zone.
Proof. intros [[H0 _] _]. unfold pauseStart, pauseEnd. lra. Qed.

(** Below every band the loop claims nothing and subtracts nothing. *)
Lemma pauseLoop_below zones : forall lo adj acc,
  zonesOk lo zones -> adj - acc < lo ->
  pauseLoop zones adj acc = Rmin 1 (adj - acc).
Proof.
  induction zones as [| zone rest IH]; intros lo adj acc Hok Hlt.
  - reflexivity.
  - destruct Hok as (Hlo & Hz & Hrest).
    rewrite pauseLoop_before by (try apply zoneOk_band; try assumption; lra).
    apply (IH (zoneProgressCenter zone + 1 / 100)); [assumption | ].
    unfold pauseStart in Hlo. lra.
Qed.

(** From [lo] on, the loop returns at least [lo] (capped at 1). *)
Lemma pauseLoop_lower zones : forall lo adj acc,
  zonesOk lo zones -> lo <= adj - acc ->
  Rmin 1 lo <= pauseLoop zones adj acc.
Proof.
  induction zones as [| zone rest IH]; intros lo adj acc Hok Hle.
  - cbn [pauseLoop]; js_real. apply Rle_min_compat_l. assumption.
  - destruct Hok as (Hlo & Hz & Hrest).
    destruct (zone_position zone (adj - acc)) as [Hb | [Hi | Ha]].
    + rewrite pauseLoop_before by (try apply zoneOk_band; assumption).
      apply IH; [ | assumption].
      apply (zonesOk_weaken rest (zoneProgressCenter zone + 1 / 100)); [ | assumption].
      unfold pauseStart in Hlo. lra.
    + rewrite pauseLoop_inside by assumption.
      pose proof (zoneValue_bounds zone adj acc Hz Hi) as [Hv _].
      pose proof (Rmin_r 1 lo). lra.
    + rewrite pauseLoop_after by assumption.
      apply Rle_trans with (Rmin 1 (zoneProgressCenter zone + 1 / 100)).
      * apply Rle_min_compat_l. unfold pauseStart in Hlo. lra.
      * apply IH; [assumption | ]. unfold pauseEnd in Ha. lra.
Qed.

(** The loop never returns more than 1. *)
Lemma pauseLoop_upper zones : forall lo adj acc,
  zonesOk lo zones -> pauseLoop zones adj acc <= 1.
Proof.
  induction zones as [| zone rest IH]; intros lo adj acc Hok.
  - cbn [pauseLoop]; js_real. apply Rmin_l.
  - destruct Hok as (Hlo & Hz & Hrest).
    destruct (zone_position zone (adj - acc)) as [Hb | [Hi | Ha]].
    + rewrite pauseLoop_before by (try apply zoneOk_band; assumption).
      now apply (IH (zoneProgressCenter zone + 1 / 100)).
    + rewrite pauseLoop_inside by assumption.
      pose proof (zoneValue_bounds zone adj acc Hz Hi) as [_ Hv].
      destruct Hz as [_ Hc]. lra.
    + rewrite pauseLoop_after by assumption.
      now apply (IH (zoneProgressCenter zone + 1 / 100)).
Qed.

(** The loop is non-decreasing in the scaled progress. *)
Lemma pauseLoop_mono zones : forall lo adj1 adj2 acc,
  zonesOk lo zones -> adj1 <= adj2 ->
  pauseLoop zones adj1 acc <= pauseLoop zones adj2 acc.
Proof.
  induction zones as [| zone rest IH]; intros lo adj1 adj2 acc Hok Hle.
  - cbn [pauseLoop]; js_real. apply Rle_min_compat_l. lra.
  - destruct Hok as (Hlo & Hz & Hrest).
    pose proof (zoneOk_band zone Hz) as Hband.
    assert (Hps : pauseStart zone = zoneProgressCenter zone - 1 / 100) by reflexivity.
    assert (Hpe : pauseEnd zone
                  = zoneProgressCenter zone + pauseAmount zone + 1 / 100)
      by reflexivity.
    destruct Hz as [Hpa Hc1].
    assert (Hz : zoneOk zone) by (split; assumption).
    destruct (zone_position zone (adj1 - acc)) as [Hb1 | [Hi1 | Ha1]];
      destruct (zone_position zone (adj2 - acc)) as [Hb2 | [Hi2 | Ha2]];
      try lra.
    + (* both before the band *)
      rewrite !pauseLoop_before by assumption.
      now apply (IH (zoneProgressCenter zone + 1 / 100)).
    + (* before, then inside *)
      rewrite pauseLoop_before by assumption.
      rewrite pauseLoop_inside by assumption.
      rewrite (pauseLoop_below rest (zoneProgressCenter zone + 1 / 100))
        by (try assumption; lra).
      pose proof (zoneValue_bounds zone adj2 acc Hz Hi2) as [Hv _].
      pose proof (Rmin_r 1 (adj1 - acc)). lra.
    + (* before, then past *)
      rewrite pauseLoop_before by assumption.
      rewrite pauseLoop_after by assumption.
      rewrite (pauseLoop_below rest (zoneProgressCenter zone + 1 / 100))
        by (try assumption; lra).
      apply Rle_trans with (Rmin 1 (zoneProgressCenter zone + 1 / 100)).
      * apply Rle_min_compat_l. lra.
      * apply pauseLoop_lower; [assumption | lra].
    + (* both inside *)
      rewrite !pauseLoop_inside by assumption.
      apply zoneValue_mono; try assumption; lra.
    + (* inside, then past *)
      rewrite pauseLoop_inside by assumption.
      rewrite pauseLoop_after by assumption.
      pose proof (zoneValue_bounds zone adj1 acc Hz Hi1) as [_ Hv].
      apply Rle_trans with (Rmin 1 (zoneProgressCenter zone + 1 / 100)).
      * apply Rmin_glb; lra.
      * apply pauseLoop_lower; [assumption | lra].
    + (* both past *)
      rewrite !pauseLoop_after by assumption.
      now apply (IH (zoneProgressCenter zone + 1 / 100)).
Qed.

(** The configured zones are in order, disjoint and inside the timeline. *)
Lemma PAUSE_ZONES_ok : zonesOk 0 PAUSE_ZONES.
Proof.
  unfold PAUSE_ZONES, zonesOk, zoneOk, pauseStart, zoneProgressCenter.
  js_real. repeat split; try exact I; lra.
Qed.

Lemma totalPauseAmount_nonneg zones : forall lo sum,
  zonesOk lo zones -> 0 <= sum ->
  0 <= fold_left (fun s (zone : PauseZone R) => s + pauseAmount zone) zones sum.
Proof.
  induction zones as [| zone rest IH]; intros lo sum Hok Hs; cbn [fold_left].
  - assumption.
  - destruct Hok as (_ & [[Hpa _] _] & Hrest).
    apply (IH (zoneProgressCenter zone + 1 / 100)); [assumption | lra].
Qed.

Lemma applyScrollPausesOn_mono zones lo r1 r2 :
  zonesOk lo zones -> r1 <= r2 ->
  applyScrollPausesOn zones r1 <= applyScrollPausesOn zones r2.
Proof.
  intros Hok Hle. unfold applyScrollPausesOn, scaledProgress; js_real.
  apply (pauseLoop_mono zones lo); [assumption | ].
  pose proof (totalPauseAmount_nonneg zones lo 0 Hok (Rle_refl 0)) as Ht.
  apply Rmult_le_compat_r; lra.
Qed.

Lemma applyScrollPausesOn_range zones r :
  zonesOk 0 zones -> 0 <= r ->
  0 <= applyScrollPausesOn zones r <= 1.
Proof.
  intros Hok Hr. unfold applyScrollPausesOn, scaledProgress; js_real.
  pose proof (totalPauseAmount_nonneg zones 0 0 Hok (Rle_refl 0)) as Ht.
  split.
  - replace 0 with (Rmin 1 0) at 1 by (apply Rmin_right; lra).
    apply pauseLoop_lower; [assumption | ].
    rewrite Rminus_0_r. apply Rmult_le_pos; lra.
  - now apply (pauseLoop_upper zones 0).
Qed.

(** ** Claims about the pause-zone transform *)

(** C3. [applyScrollPauses] is monotonically non-decreasing: for raw progress
    values [r1 <= r2] in [[0,1]], [applyScrollPauses r1 <= applyScrollPauses r2];
    no band of a pause zone produces a backward jump. *)
Theorem applyScrollPauses_monotone (r1 r2 : R) :
  0 <= r1 -> r1 <= r2 -> r2 <= 1 ->
  applyScrollPauses r1 <= applyScrollPauses r2.
Proof.
  intros _ Hle _. unfold applyScrollPauses.
  apply (applyScrollPausesOn_mono PAUSE_ZONES 0); [apply PAUSE_ZONES_ok | exact Hle].
Qed.

Lemma applyScrollPauses_monotone_witness :
  0 <= 1 / 10 /\ 1 / 10 <= 1 / 2 /\ 1 / 2 <= 1
  /\ applyScrollPauses (1 / 10) <= applyScrollPauses (1 / 2).
Proof.
  repeat split; [lra | lra | lra | ].
  apply (applyScrollPauses_monotone (1 / 10) (1 / 2)); lra.
Defined.

Lemma applyScrollPauses_range (r : R) :
  0 <= r -> 0 <= applyScrollPauses r <= 1.
Proof.
  intros Hr. unfold applyScrollPauses.
  apply applyScrollPausesOn_range; [apply PAUSE_ZONES_ok | exact Hr].
Qed.

(** ** Claims about the scroll handler *)

(** What the handler stores, in terms of the raw progress it computed. *)
Lemma handleScroll_present {T} `{JSNumber T} (env : Env T) (w : World T) el :
  containerElement env = Some el ->
  let p := applyScrollPauses (rawProgressOf el (innerHeight env)) in
  let z := (p * ofZ 7000)%js in
  progress (scrollState (handleScroll env w)) = p
  /\ cameraZ (scrollState (handleScroll env w)) = z
  /\ currentSection (scrollState (handleScroll env w)) = sectionAt z
  /\ lastProgress (handleScroll env w) = p
  /\ lastScrollTime (handleScroll env w) = performance_now env
  /\ targetZ (handleScroll env w) = z
  /\ targetY (handleScroll env w) = targetYAt z
  /\ targetFov (handleScroll env w) = targetFovAt z
  /\ targetRotationZ (handleScroll env w) = targetRotationZAt z.
Proof.
  intros Hel p z. unfold handleScroll. rewrite Hel.
  cbn [scrollState progress cameraZ currentSection velocity lastProgress
       lastScrollTime targetZ targetY targetFov targetRotationZ].
  repeat split.
Qed.

Lemma rawProgressOf_range (el : HTMLElement R) (viewportHeight : R) :
  0 <= rawProgressOf el viewportHeight <= 1.
Proof.
  unfold rawProgressOf; js_real. split.
  - apply Rmax_l.
  - apply Rmax_lub; [lra | apply Rmin_l].
Qed.

(** The invariant of the scroll state over the reals, for a container with a
    scrollable distance. *)
Lemma handleScroll_progress_invariant (env : Env R) (w : World R) el :
  containerElement env = Some el ->
  offsetHeight el - innerHeight env <> 0 ->
  0 <= progress (scrollState (handleScroll env w)) <= 1
  /\ cameraZ (scrollState (handleScroll env w))
     = progress (scrollState (handleScroll env w)) * 7000.
Proof.
  intros Hel _.
  destruct (handleScroll_present env w el Hel) as (Hp & Hz & _).
  rewrite Hp, Hz. split; [ | reflexivity].
  apply applyScrollPauses_range. apply rawProgressOf_range.
Qed.

(** C10. With [containerElement] null the handler returns at once: the scroll
    state, [lastScrollTime], [lastProgress] and the four camera targets keep
    their values (at any number instance). *)
Theorem handleScroll_null_container {T} `{JSNumber T} (env : Env T) (w : World T) :
  containerElement env = None ->
  handleScroll env w = w
  /\ scrollState (handleScroll env w) = scrollState w
  /\ lastScrollTime (handleScroll env w) = lastScrollTime w
  /\ lastProgress (handleScroll env w) = lastProgress w
  /\ targetZ (handleScroll env w) = targetZ w
  /\ targetY (handleScroll env w) = targetY w
  /\ targetFov (handleScroll env w) = targetFov w
  /\ targetRotationZ (handleScroll env w) = targetRotationZ w.
Proof.
  intros Hnull.
  assert (Hsame : handleScroll env w = w).
  { unfold handleScroll. rewrite Hnull. reflexivity. }
  rewrite Hsame. repeat split; reflexivity.
Qed.

Lemma handleScroll_null_container_witness :
  containerElement (unmountedEnv 800 2000 : Env R) = None
  /\ handleScroll (unmountedEnv 800 2000)
       (handleScroll (mountedEnv (-1600) 4000 800 1000) initialWorld)
     = handleScroll (mountedEnv (-1600) 4000 800 1000) (initialWorld : World R).
Proof.
  split; [reflexivity | ].
  apply (handleScroll_null_container (unmountedEnv 800 2000)). reflexivity.
Defined.

(** ** Damping *)

(** C5, as amended.  In exact real arithmetic (the real exponential, no
    rounding): for a smoothing rate in (0, 2] and a positive time step,
    [smoothDamp] is [current + (target - current) * (1 - exp (-rate * dt * 60))];
    the result lies between [current] and [target], and differs from
    [target] unless [current] is already there.  The binary64 reading is in
    [smoothDamp_binary64_counterexample]. *)
Theorem smoothDamp_no_overshoot (current target smoothingRate deltaSeconds : R) :
  0 < smoothingRate <= 2 -> 0 < deltaSeconds ->
  smoothDamp current target smoothingRate deltaSeconds
  = current + (target - current) * (1 - exp (- smoothingRate * deltaSeconds * 60))
  /\ Rmin current target
     <= smoothDamp current target smoothingRate deltaSeconds
     <= Rmax current target
  /\ (current <> target ->
      smoothDamp current target smoothingRate deltaSeconds <> target).
Proof.
  intros [Hr0 _] Hd. unfold smoothDamp.
  set (e := exp (- smoothingRate * deltaSeconds * 60)).
  assert (He0 : 0 < e) by apply exp_pos.
  assert (He1 : e < 1).
  { unfold e. rewrite <- exp_0. apply exp_increasing. nra. }
  split; [reflexivity | split].
  - unfold Rmin, Rmax. destruct (Rle_dec current target); nra.
  - intros Hne Heq. apply Hne. nra.
Qed.

Lemma smoothDamp_no_overshoot_witness :
  0 < 8 / 100 <= 2 /\ 0 < 1 / 60
  /\ Rmin 0 3500 <= smoothDamp 0 3500 (8 / 100) (1 / 60) <= Rmax 0 3500.
Proof.
  split; [lra | split; [lra | ]].
  apply (smoothDamp_no_overshoot 0 3500 (8 / 100) (1 / 60)); lra.
Defined.

(** [smoothDamp] is the real reading of the damping text. *)
Lemma smoothDampWith_real (current target smoothing delta : R) :
  smoothDampWith exp current target smoothing delta
  = smoothDamp current target smoothing delta.
Proof. reflexivity. Qed.

(** C5, as stated, fails on binary64.  With rate 2 and a time step of 1 second
    (inside the stated domain) the exponent is -120 and [Math.exp(-120)] is
    about [7.7e-53]: whether the engine returns the nearest double
    [0x1.d606847fc727ap-174], or anything from 0 to [2^-54], [1 - Math.exp(-120)]
    rounds to 1.  Then [smoothDamp(0.3, 0.9, 2, 1)] is
    [0.3 + (0.9 - 0.3) * 1 = 0.9000000000000001], above the target, and
    [smoothDamp(0, 3500, 2, 1)] is exactly the target 3500 after a finite
    time. *)
Lemma smoothDamp_binary64_counterexample :
  ((F64.ofZ 0 <? F64.ofZ 2)%float = true
   /\ (F64.ofZ 2 <=? F64.ofZ 2)%float = true
   /\ (F64.ofZ 0 <? F64.ofZ 1)%float = true
   /\ (- F64.ofZ 2 * F64.ofZ 1 * F64.ofZ 60)%float = F64.ofZ (-120))
  /\ forall Math_exp : float -> float,
       Math_exp (F64.ofZ (-120)) = 0x1.d606847fc727ap-174%float
       \/ Math_exp (F64.ofZ (-120)) = F64.ofZ 0
       \/ Math_exp (F64.ofZ (-120)) = 0x1p-54%float ->
       (dec 9 10
        <? smoothDampWith Math_exp (dec 3 10) (dec 9 10) (F64.ofZ 2) (F64.ofZ 1))%float
       = true
       /\ smoothDampWith Math_exp (F64.ofZ 0) (F64.ofZ 3500) (F64.ofZ 2) (F64.ofZ 1)
          = F64.ofZ 3500.
Proof.
  split.
  - repeat split; vm_compute; reflexivity.
  - intros Math_exp Hexp. unfold smoothDampWith.
    cbn [ofZ add sub mul div neg F64_JSNumber].
    change (- F64.ofZ 2 * F64.ofZ 1 * F64.ofZ 60)%float with (F64.ofZ (-120)).
    destruct Hexp as [-> | [-> | ->]]; split; vm_compute; reflexivity.
Qed.

(** ** Evaluating the transform at a given raw progress *)

Ltac zone_side :=
  unfold pauseEnd, pauseStart, zoneProgressCenter; js_real; lra.

(** Run the loop over the zones of the goal, one zone per step. *)
Ltac run_pauseLoop :=
  repeat first
    [ rewrite pauseLoop_after by zone_side
    | rewrite pauseLoop_before by zone_side
    | rewrite pauseLoop_inside by zone_side ];
  try first
    [ rewrite zoneValue_entering by zone_side
    | rewrite zoneValue_holding by zone_side
    | rewrite zoneValue_exiting by zone_side ];
  cbn [pauseLoop]; unfold pauseEnd, pauseStart, zoneProgressCenter; js_real;
  try first [ rewrite Rmin_right by lra | rewrite Rmin_left by lra ].

Ltac eval_applyScrollPauses :=
  unfold applyScrollPauses, applyScrollPausesOn, scaledProgress, PAUSE_ZONES;
  cbn [fold_left]; js_real; run_pauseLoop.

Lemma applyScrollPauses_0 : applyScrollPauses 0 = 0.
Proof. eval_applyScrollPauses. lra. Qed.

Lemma applyScrollPauses_1 : applyScrollPauses 1 = 1.
Proof. eval_applyScrollPauses. lra. Qed.

Lemma applyScrollPauses_half : applyScrollPauses (1 / 2) = 203 / 400.
Proof. eval_applyScrollPauses. lra. Qed.

Lemma scaledProgress_center :
  scaledProgress PAUSE_ZONES (150 / 1547) = 750 / 7000.
Proof. unfold scaledProgress, PAUSE_ZONES. cbn [fold_left]. js_real. lra. Qed.

(** C7, as amended.  For a zone table that starts with the zone at
    [center = 750], [pauseAmount = 0.015] (alone, or followed by the other
    configured zones): the raw progress whose scaled value is the centre
    [750/7000] is still in the entering band and is mapped to
    [750/7000 - 0.007]; the values mapped to [zoneProgressCenter] are those of
    the holding band, scaled progress in [750/7000 + 0.0005, 750/7000 + 0.0145]. *)
Theorem first_zone_center_value (rest : list (PauseZone R)) (r : R) :
  let zones := {| center := 750; pauseAmount := 15 / 1000 |} :: rest in
  (scaledProgress zones r = 750 / 7000 ->
   applyScrollPausesOn zones r = 750 / 7000 - 7 / 1000)
  /\ (750 / 7000 + 5 / 10000 <= scaledProgress zones r <= 750 / 7000 + 145 / 10000 ->
      applyScrollPausesOn zones r = 750 / 7000).
Proof.
  intros zones. unfold applyScrollPausesOn. js_real.
  generalize (scaledProgress zones r). intros adj. unfold zones. split.
  - intros ->. rewrite pauseLoop_inside by zone_side.
    rewrite zoneValue_entering by zone_side. zone_side.
  - intros [Hlo Hhi]. rewrite pauseLoop_inside by zone_side.
    rewrite zoneValue_holding by zone_side. reflexivity.
Qed.

Lemma first_zone_center_value_witness :
  scaledProgress PAUSE_ZONES (150 / 1547) = 750 / 7000
  /\ applyScrollPauses (150 / 1547) = 750 / 7000 - 7 / 1000.
Proof.
  split; [exact scaledProgress_center | ].
  exact (proj1 (first_zone_center_value (tl PAUSE_ZONES) (150 / 1547))
           scaledProgress_center).
Defined.

(** C7, as stated, fails: at scaled progress exactly [750/7000] the transform
    returns [750/7000 - 0.007], both with the configured table and with the
    zone at 750 alone. *)
Lemma first_zone_center_counterexample :
  (scaledProgress PAUSE_ZONES (150 / 1547) = 750 / 7000
   /\ applyScrollPauses (150 / 1547) = 750 / 7000 - 7 / 1000
   /\ applyScrollPauses (150 / 1547) <> 750 / 7000)
  /\ (let single := [ {| center := 750; pauseAmount := 15 / 1000 |} ] in
      scaledProgress single (150 / 1421) = 750 / 7000
      /\ applyScrollPausesOn single (150 / 1421) = 750 / 7000 - 7 / 1000
      /\ applyScrollPausesOn single (150 / 1421) <> 750 / 7000).
Proof.
  split.
  - assert (E : applyScrollPauses (150 / 1547) = 750 / 7000 - 7 / 1000)
      by (eval_applyScrollPauses; lra).
    split; [exact scaledProgress_center | split; [exact E | ]].
    rewrite E. lra.
  - cbv zeta.
    assert (E : applyScrollPausesOn
                  [ {| center := 750; pauseAmount := 15 / 1000 |} ] (150 / 1421)
                = 750 / 7000 - 7 / 1000).
    { unfold applyScrollPausesOn, scaledProgress. cbn [fold_left]. js_real.
      run_pauseLoop. lra. }
    split; [ | split; [exact E | rewrite E; lra]].
    unfold scaledProgress. cbn [fold_left]. js_real. lra.
Qed.

(** ** Windowed camera parameters *)

(** The window targets as functions of the camera depth. *)
Lemma targets_outside_windows (z : R) :
  ((z < 4100 \/ 4700 <= z) -> targetFovAt z = 50)
  /\ (z < 5100 -> targetYAt z = 0)
  /\ (5400 < z -> targetYAt z = -500)
  /\ ((z < 6300 \/ 6600 <= z) -> targetRotationZAt z = 0).
Proof.
  repeat split.
  - intros [Hz | Hz]; unfold targetFovAt; js_real;
      repeat (decide_cmp; cbn [andb]); try rewrite andb_false_r; reflexivity.
  - intros Hz. unfold targetYAt; js_real.
    repeat (decide_cmp; cbn [andb]). reflexivity.
  - intros Hz. unfold targetYAt; js_real.
    repeat (decide_cmp; cbn [andb]); try rewrite andb_false_r.
    repeat (decide_cmp; cbn [andb]). reflexivity.
  - intros [Hz | Hz]; unfold targetRotationZAt; js_real;
      repeat (decide_cmp; cbn [andb]); try rewrite andb_false_r; reflexivity.
Qed.

(** C4, as amended.  After an invocation with the container mounted, with [z]
    the stored [cameraZ]: target FOV is 50 for [z] outside [4100, 4700) (the
    dolly zoom and its return), target roll is 0 for [z] outside [6300, 6600)
    (the spin and its reset), target Y is 0 for [z] below 5100 and stays at
    -500 for [z] above 5400. *)
Theorem window_targets_baseline (env : Env R) (w : World R) (el : HTMLElement R) :
  containerElement env = Some el ->
  let w' := handleScroll env w in
  let z := cameraZ (scrollState w') in
  ((z < 4100 \/ 4700 <= z) -> targetFov w' = 50)
  /\ (z < 5100 -> targetY w' = 0)
  /\ (5400 < z -> targetY w' = -500)
  /\ ((z < 6300 \/ 6600 <= z) -> targetRotationZ w' = 0).
Proof.
  intros Hel w' z.
  destruct (handleScroll_present env w el Hel)
    as (_ & Hz & _ & _ & _ & _ & HY & HF & HR).
  fold w' in Hz, HY, HF, HR. unfold z. rewrite Hz, HY, HF, HR.
  apply targets_outside_windows.
Qed.

Lemma window_targets_baseline_witness :
  let env : Env R := mountedEnv (-1600) 4000 800 1000 in
  let w' := handleScroll env initialWorld in
  containerElement env
  = Some {| rect_top := IZR (-1600); offsetHeight := IZR 4000 |}
  /\ (cameraZ (scrollState w') < 5100 -> targetY w' = 0).
Proof.
  intros env w'. split; [reflexivity | ].
  exact (proj1 (proj2 (window_targets_baseline env initialWorld _ eq_refl))).
Defined.

Lemma rawProgress_six_sevenths :
  rawProgressOf {| rect_top := -3000; offsetHeight := 4300 |} 800 = 6 / 7.
Proof.
  unfold rawProgressOf; cbn [rect_top offsetHeight]; js_real.
  rewrite Rmin_right by lra. rewrite Rmax_right by lra. lra.
Qed.

(** C4, as stated, fails.  With the container 4300 high, 3000 scrolled and a
    viewport of 800, the handler stores [cameraZ = 6000], which lies outside
    the dolly-zoom, falling and glitch-spin windows (and their return
    phases), and sets target Y to -500, not 0. *)
Lemma window_targets_counterexample :
  let w' := handleScroll (mountedEnv (-3000) 4300 800 1000) (initialWorld : World R) in
  cameraZ (scrollState w') = 6000
  /\ targetY w' = -500
  /\ targetY w' <> 0
  /\ ~ (forall z : R,
          ~ (4100 <= z <= 4400) -> ~ (5100 <= z <= 5400) -> ~ (6300 <= z <= 6450) ->
          targetFovAt z = 50 /\ targetYAt z = 0 /\ targetRotationZAt z = 0)
  /\ ~ (forall z : R, ~ (5100 <= z <= 5400) -> targetYAt z = 0).
Proof.
  intros w'.
  assert (E : targetYAt 6000 = -500).
  { apply (targets_outside_windows 6000). lra. }
  assert (Hz : cameraZ (scrollState w') = 6000).
  { destruct (handleScroll_present (mountedEnv (-3000) 4300 800 1000)
                (initialWorld : World R) _ eq_refl) as (_ & Hz & _).
    fold w' in Hz. rewrite Hz.
    change (applyScrollPauses
              (rawProgressOf {| rect_top := -3000; offsetHeight := 4300 |} 800)
            * 7000 = 6000).
    rewrite rawProgress_six_sevenths.
    replace (applyScrollPauses (6 / 7)) with (6 / 7)
      by (symmetry; eval_applyScrollPauses; lra).
    lra. }
  assert (HY : targetY w' = -500).
  { destruct (handleScroll_present (mountedEnv (-3000) 4300 800 1000)
                (initialWorld : World R) _ eq_refl)
      as (_ & Hz' & _ & _ & _ & _ & HY & _).
    fold w' in Hz', HY. rewrite HY, <- Hz', Hz. exact E. }
  split; [exact Hz | split; [exact HY | split; [rewrite HY; lra | split]]].
  - intros Hall. destruct (Hall 6000) as (_ & HY0 & _); try lra.
  - intros Hall. pose proof (Hall 6000) as HY0. rewrite E in HY0. lra.
Qed.

(** ** Sections along the sweep *)

Ltac decide_section :=
  unfold sectionAt; js_real; repeat (decide_cmp; cbv iota); reflexivity.

(** The section index never decreases with the camera depth. *)
Lemma sectionAt_index_mono (z1 z2 : R) :
  z1 <= z2 ->
  (indexOf (sectionAt z1) SECTIONS <= indexOf (sectionAt z2) SECTIONS)%nat.
Proof.
  intros Hle. unfold sectionAt; js_real.
  repeat (split_cmp; cbv iota; try (exfalso; lra));
    vm_compute; lia.
Qed.

(** The handler only ever stores a configured section name. *)
Lemma sectionAt_configured (z : R) : In (sectionAt z) SECTIONS.
Proof.
  unfold sectionAt; js_real.
  repeat (split_cmp; cbv iota); unfold SECTIONS; cbn [In]; tauto.
Qed.

(** Reach a section: raw progress [r] is mapped to progress [v]. *)
Ltac reach r v :=
  exists r; split; [lra | ];
  unfold sectionOfRaw; js_real;
  replace (applyScrollPauses r) with v
    by (symmetry; eval_applyScrollPauses; lra);
  decide_section.

(** Every configured section is stored for some raw progress in [[0,1]]:
    between two zones at depth [250 + 1000 m], inside zone [j]'s holding band
    at its centre [1000 j - 250]. *)
Lemma section_reached (name : string) :
  In name SECTIONS -> exists r : R, 0 <= r <= 1 /\ sectionOfRaw r = name.
Proof.
  unfold SECTIONS; cbn [In].
  intros [<- | [<- | [<- | [<- | [<- | [<- | [<- | [<- | [<- | [<- | [<- | [<- | [<- | [<- | []]]]]]]]]]]]]]].
  - reach ((250 / 7000) / (1105 / 1000)) (250 / 7000).
  - reach ((750 / 7000 + 5 / 1000) / (1105 / 1000)) (750 / 7000).
  - reach ((1250 / 7000 + 15 / 1000) / (1105 / 1000)) (1250 / 7000).
  - reach ((1750 / 7000 + 5 / 1000 + 15 / 1000) / (1105 / 1000)) (1750 / 7000).
  - reach ((2250 / 7000 + 30 / 1000) / (1105 / 1000)) (2250 / 7000).
  - reach ((2750 / 7000 + 5 / 1000 + 30 / 1000) / (1105 / 1000)) (2750 / 7000).
  - reach ((3250 / 7000 + 45 / 1000) / (1105 / 1000)) (3250 / 7000).
  - reach ((3750 / 7000 + 5 / 1000 + 45 / 1000) / (1105 / 1000)) (3750 / 7000).
  - reach ((4250 / 7000 + 60 / 1000) / (1105 / 1000)) (4250 / 7000).
  - reach ((4750 / 7000 + 5 / 1000 + 60 / 1000) / (1105 / 1000)) (4750 / 7000).
  - reach ((5250 / 7000 + 75 / 1000) / (1105 / 1000)) (5250 / 7000).
  - reach ((5750 / 7000 + 5 / 1000 + 75 / 1000) / (1105 / 1000)) (5750 / 7000).
  - reach ((6250 / 7000 + 90 / 1000) / (1105 / 1000)) (6250 / 7000).
  - reach ((6750 / 7000 + 5 / 1000 + 90 / 1000) / (1105 / 1000)) (6750 / 7000).
Qed.

(** The section stored by an invocation is the section of its raw progress. *)
Lemma handleScroll_section {T} `{JSNumber T} (env : Env T) (w : World T) el :
  containerElement env = Some el ->
  currentSection (scrollState (handleScroll env w))
  = sectionOfRaw (rawProgressOf el (innerHeight env)).
Proof.
  intros Hel. destruct (handleScroll_present env w el Hel) as (_ & _ & Hs & _).
  exact Hs.
Qed.

(** C2. As raw progress sweeps from 0 to 1 the stored section runs through the
    14 configured names in table order: its index never decreases along the
    sweep (each name is one contiguous run, none comes back), every name is
    stored for some raw progress (none is skipped), nothing else is stored,
    the sweep starts in [portal] and ends in [parody], and what an
    invocation stores in [currentSection] is the section of its raw
    progress. *)
Theorem sections_visited_in_order :
  SECTIONS = [ "portal"; "eventX"; "vortex"; "battle"; "curtain"; "spotlight";
               "paintTunnel"; "mural"; "dollyZoom"; "unveil"; "falling";
               "beatTheStreet"; "glitch"; "parody" ]%string
  /\ NoDup SECTIONS
  /\ (forall r1 r2 : R, 0 <= r1 -> r1 <= r2 -> r2 <= 1 ->
        (indexOf (sectionOfRaw r1) SECTIONS <= indexOf (sectionOfRaw r2) SECTIONS)%nat)
  /\ (forall name, In name SECTIONS ->
        exists r : R, 0 <= r <= 1 /\ sectionOfRaw r = name)
  /\ (forall r : R, In (sectionOfRaw r) SECTIONS)
  /\ sectionOfRaw 0 = "portal"%string
  /\ sectionOfRaw 1 = "parody"%string
  /\ (forall (env : Env R) (w : World R) el,
        containerElement env = Some el ->
        currentSection (scrollState (handleScroll env w))
        = sectionOfRaw (rawProgressOf el (innerHeight env))).
Proof.
  split; [reflexivity
         | split; [ | split; [ | split; [ | split; [ | split; [ | split]]]]]].
  - unfold SECTIONS.
    repeat (constructor; [cbn [In]; intuition discriminate | ]). constructor.
  - intros r1 r2 H0 Hle H1. unfold sectionOfRaw; js_real.
    apply sectionAt_index_mono.
    pose proof (applyScrollPausesOn_mono PAUSE_ZONES 0 r1 r2 PAUSE_ZONES_ok Hle)
      as Hmono.
    fold (applyScrollPauses r1) (applyScrollPauses r2) in Hmono. lra.
  - exact section_reached.
  - intros r. apply sectionAt_configured.
  - unfold sectionOfRaw; js_real. rewrite applyScrollPauses_0. decide_section.
  - unfold sectionOfRaw; js_real. rewrite applyScrollPauses_1. decide_section.
  - intros env w el Hel. now apply handleScroll_section.
Qed.

(** ** Velocity *)

Lemma handleScroll_velocity (env : Env R) (w : World R) el :
  containerElement env = Some el ->
  let dt := (performance_now env - lastScrollTime w) / 1000 in
  (dt <= 0 -> velocity (scrollState (handleScroll env w)) = 0)
  /\ (0 < dt ->
      velocity (scrollState (handleScroll env w))
      = (progress (scrollState (handleScroll env w)) - lastProgress w) / dt).
Proof.
  intros Hel dt. unfold handleScroll. rewrite Hel.
  cbn [scrollState velocity progress]. js_real. fold dt. split; intros Hdt.
  - rewrite Rltb_false by assumption. reflexivity.
  - rewrite Rltb_true by assumption. reflexivity.
Qed.

(** C9, as amended.  For two consecutive invocations with the container
    mounted and [dt] seconds between their timestamps: when [dt] is zero (or
    negative) the division is guarded and velocity is set to 0; when [dt] is
    positive, velocity is (new progress - previous progress) / dt. *)
Theorem velocity_between_invocations (env1 env2 : Env R) (w0 : World R) el1 el2 :
  containerElement env1 = Some el1 ->
  containerElement env2 = Some el2 ->
  let w1 := handleScroll env1 w0 in
  let w2 := handleScroll env2 w1 in
  let dt := (performance_now env2 - performance_now env1) / 1000 in
  (dt <= 0 -> velocity (scrollState w2) = 0)
  /\ (0 < dt ->
      velocity (scrollState w2)
      = (progress (scrollState w2) - progress (scrollState w1)) / dt).
Proof.
  intros H1 H2 w1 w2 dt.
  destruct (handleScroll_present env1 w0 el1 H1) as (Hp & _ & _ & Hlp & Hlt & _).
  fold w1 in Hp, Hlp, Hlt.
  pose proof (handleScroll_velocity env2 w1 el2 H2) as Hv.
  cbv zeta in Hv. fold w2 in Hv. rewrite Hlt, Hlp in Hv. rewrite Hp.
  exact Hv.
Qed.

Lemma rawProgress_sample :
  rawProgressOf {| rect_top := -1600; offsetHeight := 4000 |} 800 = 1 / 2.
Proof.
  unfold rawProgressOf; cbn [rect_top offsetHeight]; js_real.
  rewrite Rmin_right by lra. rewrite Rmax_right by lra. lra.
Qed.

Lemma velocity_between_invocations_witness :
  let env1 : Env R := mountedEnv (-1600) 4000 800 1000 in
  let env2 : Env R := mountedEnv (-1600) 4000 800 1000 in
  let w1 := handleScroll env1 initialWorld in
  let w2 := handleScroll env2 w1 in
  (performance_now env2 - performance_now env1) / 1000 <= 0
  /\ velocity (scrollState w2) = 0.
Proof.
  intros env1 env2 w1 w2.
  assert (Hdt : (performance_now env2 - performance_now env1) / 1000 <= 0).
  { unfold env1, env2, mountedEnv; cbn [performance_now]; js_real. lra. }
  split; [exact Hdt | ].
  exact (proj1 (velocity_between_invocations env1 env2 initialWorld _ _
                  eq_refl eq_refl) Hdt).
Defined.

(** C9, as stated, fails: the handler runs twice at the same timestamp
    (container 4000 high, 1600 scrolled, viewport 800, clock at 1000 ms);
    the first run leaves velocity [203/400], the second sets it to 0
    instead of leaving it. *)
Lemma velocity_counterexample :
  let env : Env R := mountedEnv (-1600) 4000 800 1000 in
  let w1 := handleScroll env initialWorld in
  let w2 := handleScroll env w1 in
  velocity (scrollState w1) = 203 / 400
  /\ velocity (scrollState w2) = 0
  /\ velocity (scrollState w2) <> velocity (scrollState w1).
Proof.
  intros env w1 w2.
  assert (Hp1 : progress (scrollState w1) = 203 / 400).
  { destruct (handleScroll_present env initialWorld _ eq_refl) as (Hp & _).
    fold w1 in Hp. rewrite Hp.
    change (applyScrollPauses
              (rawProgressOf {| rect_top := -1600; offsetHeight := 4000 |} 800)
            = 203 / 400).
    rewrite rawProgress_sample. apply applyScrollPauses_half. }
  assert (Hv1 : velocity (scrollState w1) = 203 / 400).
  { destruct (handleScroll_velocity env initialWorld _ eq_refl) as [_ Hpos].
    fold w1 in Hpos. rewrite Hpos.
    - rewrite Hp1. unfold env, mountedEnv, initialWorld.
      cbn [performance_now lastScrollTime lastProgress]. js_real. lra.
    - unfold env, mountedEnv, initialWorld.
      cbn [performance_now lastScrollTime]. js_real. lra. }
  assert (Hv2 : velocity (scrollState w2) = 0).
  { apply (proj1 (handleScroll_velocity env w1 _ eq_refl)).
    destruct (handleScroll_present env initialWorld _ eq_refl)
      as (_ & _ & _ & _ & Hlt & _).
    fold w1 in Hlt. rewrite Hlt. lra. }
  split; [exact Hv1 | split; [exact Hv2 | ]].
  rewrite Hv1, Hv2. lra.
Qed.

(** ** Degenerate geometry, in binary64 *)

(** C1 fails on the code.  With a viewport of height 0 the mounted container
    (500vh) has height 0 too, so the scrollable distance is 0 and, not
    scrolled, [scrolled / scrollableDistance] is [0 / 0]; the same holds for a
    container exactly as high as a viewport of 800.  No guard treats it as
    progress 0: [Math.min] and [Math.max] let the [NaN] through,
    [applyScrollPauses] returns it, and it is stored in [progress], [cameraZ],
    [velocity], [lastProgress] and the depth target.  Scrolled by 100, a
    container with scrollable distance 0 gets raw progress 1, not 0. *)
Theorem zero_scrollable_distance_stores_NaN :
  let w := handleScroll (mountedEnv 0 0 0 1000) (initialWorld : World float) in
  PrimFloat.is_nan
    (rawProgressOf {| rect_top := F64.ofZ 0; offsetHeight := F64.ofZ 0 |}
       (F64.ofZ 0)) = true
  /\ PrimFloat.is_nan
       (rawProgressOf {| rect_top := F64.ofZ 0; offsetHeight := F64.ofZ 800 |}
          (F64.ofZ 800)) = true
  /\ PrimFloat.is_nan (progress (scrollState w)) = true
  /\ PrimFloat.is_nan (cameraZ (scrollState w)) = true
  /\ PrimFloat.is_nan (velocity (scrollState w)) = true
  /\ PrimFloat.is_nan (lastProgress w) = true
  /\ PrimFloat.is_nan (targetZ w) = true
  /\ rawProgressOf {| rect_top := F64.ofZ (-100); offsetHeight := F64.ofZ 800 |}
       (F64.ofZ 800) = 1%float.
Proof.
  cbv zeta. repeat split; vm_compute; reflexivity.
Qed.

(** C6 fails on the code, by the same unguarded division: with the container
    mounted and a viewport of height 0, the stored progress is [NaN], which
    is not in [[0,1]] (every comparison with it is false), and so is
    [cameraZ].  With a scrollable distance the invariant holds
    ([handleScroll_progress_invariant]). *)
Theorem zero_scrollable_distance_breaks_range :
  let w := handleScroll (mountedEnv 0 0 0 1000) (initialWorld : World float) in
  containerElement (mountedEnv 0 0 0 1000 : Env float) <> None
  /\ ((0 <=? progress (scrollState w)) && (progress (scrollState w) <=? 1))%float
     = false
  /\ F64.isFinite (progress (scrollState w)) = false
  /\ F64.isFinite (cameraZ (scrollState w)) = false.
Proof.
  cbv zeta. split; [discriminate | ].
  repeat split; vm_compute; reflexivity.
Qed.

(** ** The particle system's frame callback *)

(** C8. In the [ParticleSystem] frame callback (mesh and material mounted),
    when the damped opacity is at or below 0.01 the mesh's [visible] flag is
    set to false and the per-particle update does not run: the particles and
    the instance matrices are those of the previous frame. *)
Theorem particleFrame_invisible_skips
        (props : ParticleSystemProps) (cameraZ delta : R)
        (st : ParticleSystemState) (mesh : InstancedMesh) (material : Material) :
  meshRef st = Some mesh ->
  materialRef st = Some material ->
  smoothDamp (currentOpacity st) (particleTargetOpacity props cameraZ) (1 / 10) delta
    <= 1 / 100 ->
  let st' := particleFrame props cameraZ delta st in
  currentOpacity st'
  = smoothDamp (currentOpacity st) (particleTargetOpacity props cameraZ) (1 / 10) delta
  /\ meshRef st'
     = Some {| visible := false;
               instanceMatrices := instanceMatrices mesh;
               needsUpdate := needsUpdate mesh |}
  /\ particles st' = particles st.
Proof.
  intros Hmesh Hmat Hop st'. unfold st', particleFrame.
  rewrite Hmesh, Hmat. rewrite Rltb_false by exact Hop.
  cbn [negb currentOpacity meshRef particles]. repeat split.
Qed.

(** Above the threshold the same callback does run the per-particle update. *)
Lemma particleFrame_visible_updates
      (props : ParticleSystemProps) (cameraZ delta : R)
      (st : ParticleSystemState) (mesh : InstancedMesh) (material : Material) :
  meshRef st = Some mesh ->
  materialRef st = Some material ->
  1 / 100
  < smoothDamp (currentOpacity st) (particleTargetOpacity props cameraZ) (1 / 10) delta ->
  let st' := particleFrame props cameraZ delta st in
  let moved :=
    forEachParticle props delta 0 (particles st) (instanceMatrices mesh) in
  meshRef st'
  = Some {| visible := true; instanceMatrices := snd moved; needsUpdate := true |}
  /\ particles st' = fst moved.
Proof.
  intros Hmesh Hmat Hop st' moved. unfold st', particleFrame.
  rewrite Hmesh, Hmat. rewrite Rltb_true by exact Hop. cbn [negb].
  fold moved. destruct moved as [ps buf]. cbn [meshRef particles fst snd].
  split; reflexivity.
Qed.

Lemma particleFrame_invisible_skips_witness :
  let props := {| count := 1; size := 2; zStart := 0; zEnd := 100;
                  spread := 500; speed := 1 / 2; baseOpacity := 6 / 10 |} in
  let p := {| position := {| vx := 10; vy := 20; vz := 50 |};
              pvelocity := {| vx := 1 / 4; vy := - 1 / 4; vz := 1 / 8 |};
              scale := 1 |} in
  let mesh := {| visible := true;
                 instanceMatrices := [ dummyMatrix (position p) 2 ];
                 needsUpdate := false |} in
  let st := {| meshRef := Some mesh;
               materialRef := Some {| opacity := 6 / 10 |};
               currentOpacity := 0;
               particles := [ p ] |} in
  smoothDamp (currentOpacity st) (particleTargetOpacity props 5000) (1 / 10) (1 / 60)
    <= 1 / 100
  /\ particles (particleFrame props 5000 (1 / 60) st) = [ p ].
Proof.
  intros props p mesh st.
  assert (Ht : particleTargetOpacity props 5000 = 0).
  { unfold particleTargetOpacity, props. cbn [zStart zEnd baseOpacity].
    rewrite Rltb_false; [reflexivity | ].
    rewrite Rabs_right by lra. lra. }
  assert (Hop : smoothDamp (currentOpacity st) (particleTargetOpacity props 5000)
                  (1 / 10) (1 / 60) <= 1 / 100).
  { rewrite Ht. unfold smoothDamp, st. cbn [currentOpacity]. lra. }
  split; [exact Hop | ].
  exact (proj2 (proj2 (particleFrame_invisible_skips props 5000 (1 / 60) st mesh
                         {| opacity := 6 / 10 |} eq_refl eq_refl Hop))).
Defined.

(** * Further properties of the timeline code *)

(** ** Easing functions *)

Lemma cube_le (a b : R) : a <= b -> a * (a * a) <= b * (b * b).
Proof.
  intros Hab.
  assert (Hq : 0 <= a * a + a * b + b * b) by nra.
  assert (Hd : 0 <= (b - a) * (a * a + a * b + b * b))
    by (apply Rmult_le_pos; lra).
  nra.
Qed.

Lemma fourth_le (a b : R) :
  0 <= b -> b <= a -> b * (b * (b * b)) <= a * (a * (a * a)).
Proof.
  intros Hb Hba.
  assert (Hsq : b * b <= a * a) by nra.
  assert (Hb2 : 0 <= b * b) by nra.
  replace (b * (b * (b * b))) with ((b * b) * (b * b)) by ring.
  replace (a * (a * (a * a))) with ((a * a) * (a * a)) by ring.
  nra.
Qed.

Lemma easeOutQuart_real (t : R) :
  easeOutQuart t = 1 - (1 - t) * ((1 - t) * ((1 - t) * (1 - t))).
Proof. reflexivity. Qed.

Lemma easeInOutCubic_low (t : R) :
  t < 1 / 2 -> easeInOutCubic t = 4 * t * t * t.
Proof.
  intros Ht. unfold easeInOutCubic; js_real.
  rewrite Rltb_true by lra. reflexivity.
Qed.

Lemma easeInOutCubic_high (t : R) :
  1 / 2 <= t ->
  easeInOutCubic t
  = 1 - (-2 * t + 2) * ((-2 * t + 2) * (-2 * t + 2)) / 2.
Proof.
  intros Ht. unfold easeInOutCubic; js_real.
  rewrite Rltb_false by lra. reflexivity.
Qed.

Lemma easeOutQuart_range (t : R) : 0 <= t <= 1 -> 0 <= easeOutQuart t <= 1.
Proof.
  intros [H0 H1]. rewrite easeOutQuart_real.
  pose proof (fourth_le 1 (1 - t)) as Hup.
  pose proof (fourth_le (1 - t) 0) as Hlo.
  lra.
Qed.

Lemma easeInOutCubic_mono (t1 t2 : R) :
  t1 <= t2 -> easeInOutCubic t1 <= easeInOutCubic t2.
Proof.
  intros Hle.
  destruct (Rlt_le_dec t1 (1 / 2)) as [H1 | H1];
    destruct (Rlt_le_dec t2 (1 / 2)) as [H2 | H2].
  - rewrite !easeInOutCubic_low by assumption.
    pose proof (cube_le t1 t2 Hle). lra.
  - rewrite easeInOutCubic_low, easeInOutCubic_high by assumption.
    pose proof (cube_le t1 (1 / 2)). pose proof (cube_le (-2 * t2 + 2) 1). lra.
  - lra.
  - rewrite !easeInOutCubic_high by assumption.
    pose proof (cube_le (-2 * t2 + 2) (-2 * t1 + 2)). lra.
Qed.

Lemma easeInOutCubic_0 : easeInOutCubic 0 = 0.
Proof. rewrite easeInOutCubic_low by lra. lra. Qed.

Lemma easeInOutCubic_1 : easeInOutCubic 1 = 1.
Proof. rewrite easeInOutCubic_high by lra. lra. Qed.

Lemma easeInOutCubic_range (t : R) : 0 <= t <= 1 -> 0 <= easeInOutCubic t <= 1.
Proof.
  intros [H0 H1].
  pose proof (easeInOutCubic_mono 0 t H0) as Hlo.
  pose proof (easeInOutCubic_mono t 1 H1) as Hhi.
  rewrite easeInOutCubic_0 in Hlo. rewrite easeInOutCubic_1 in Hhi. lra.
Qed.

(** X1. On [[0,1]] [easeOutQuart] is non-decreasing with values in [[0,1]],
    from 0 at 0 to 1 at 1; it does not clamp its input: it is symmetric about
    1, so it comes back down past 1. *)
Theorem easeOutQuart_unit_interval (t1 t2 : R) :
  0 <= t1 -> t1 <= t2 -> t2 <= 1 ->
  0 <= easeOutQuart t1
  /\ easeOutQuart t1 <= easeOutQuart t2
  /\ easeOutQuart t2 <= 1
  /\ easeOutQuart 0 = 0
  /\ easeOutQuart 1 = 1
  /\ (forall t : R, easeOutQuart (2 - t) = easeOutQuart t).
Proof.
  intros H0 Hle H1. repeat split.
  - apply easeOutQuart_range; lra.
  - rewrite !easeOutQuart_real.
    pose proof (fourth_le (1 - t1) (1 - t2)). lra.
  - apply easeOutQuart_range; lra.
  - rewrite easeOutQuart_real. lra.
  - rewrite easeOutQuart_real. lra.
  - intros t. rewrite !easeOutQuart_real. ring.
Qed.

Lemma easeOutQuart_unit_interval_witness :
  0 <= 1 / 4 /\ 1 / 4 <= 3 / 4 /\ 3 / 4 <= 1
  /\ easeOutQuart (1 / 4) <= easeOutQuart (3 / 4).
Proof.
  repeat split; [lra | lra | lra | ].
  apply (easeOutQuart_unit_interval (1 / 4) (3 / 4)); lra.
Defined.

(** X2. [easeInOutCubic] is non-decreasing on the whole line, its two
    branches meet at [1/2] with value [1/2], it maps [[0,1]] into [[0,1]]
    with 0 at 0 and 1 at 1, and it is point-symmetric:
    [easeInOutCubic (1 - t) = 1 - easeInOutCubic t]. *)
Theorem easeInOutCubic_shape :
  (forall t1 t2 : R, t1 <= t2 -> easeInOutCubic t1 <= easeInOutCubic t2)
  /\ (forall t : R, 0 <= t <= 1 -> 0 <= easeInOutCubic t <= 1)
  /\ easeInOutCubic 0 = 0
  /\ easeInOutCubic (1 / 2) = 1 / 2
  /\ easeInOutCubic 1 = 1
  /\ (forall t : R, easeInOutCubic (1 - t) = 1 - easeInOutCubic t).
Proof.
  split; [exact easeInOutCubic_mono | ].
  split; [exact easeInOutCubic_range | ].
  split; [exact easeInOutCubic_0 | ].
  split; [rewrite easeInOutCubic_high by lra; lra | ].
  split; [exact easeInOutCubic_1 | ].
  intros t. destruct (Rtotal_order t (1 / 2)) as [Hlt | [Heq | Hgt]].
  - rewrite (easeInOutCubic_low t) by lra.
    rewrite (easeInOutCubic_high (1 - t)) by lra. field.
  - subst t. replace (1 - 1 / 2) with (1 / 2) by lra.
    rewrite easeInOutCubic_high by lra. lra.
  - rewrite (easeInOutCubic_high t) by lra.
    rewrite (easeInOutCubic_low (1 - t)) by lra. field.
Qed.

(** ** Scene opacity *)

Lemma getSceneOpacity_inside (cameraZ sceneZ fadeRange : R) :
  Rabs (cameraZ - sceneZ) <= fadeRange ->
  getSceneOpacity cameraZ sceneZ fadeRange
  = easeOutQuart (1 - Rabs (cameraZ - sceneZ) / fadeRange).
Proof.
  intros Hd. unfold getSceneOpacity; js_real.
  rewrite Rltb_false by exact Hd. reflexivity.
Qed.

Lemma getSceneOpacity_outside (cameraZ sceneZ fadeRange : R) :
  fadeRange < Rabs (cameraZ - sceneZ) ->
  getSceneOpacity cameraZ sceneZ fadeRange = 0.
Proof.
  intros Hd. unfold getSceneOpacity; js_real.
  rewrite Rltb_true by exact Hd. reflexivity.
Qed.

Lemma getSceneOpacity_range (cameraZ sceneZ fadeRange : R) :
  0 < fadeRange -> 0 <= getSceneOpacity cameraZ sceneZ fadeRange <= 1.
Proof.
  intros Hf.
  destruct (Rle_lt_dec (Rabs (cameraZ - sceneZ)) fadeRange) as [Hin | Hout].
  - rewrite getSceneOpacity_inside by exact Hin.
    apply easeOutQuart_range.
    pose proof (Rabs_pos (cameraZ - sceneZ)) as Hpos.
    pose proof (Rdiv_unit_interval (Rabs (cameraZ - sceneZ)) fadeRange Hf
                  (conj Hpos Hin)).
    lra.
  - rewrite getSceneOpacity_outside by exact Hout. lra.
Qed.

(** X3. For a positive fade range, [getSceneOpacity] depends only on the
    distance to the scene (it is the same [k] before and [k] after it), lies
    in [[0,1]], is 1 at the scene's own depth, is 0 at distance [fadeRange]
    and beyond, and is positive strictly inside the range. *)
Theorem getSceneOpacity_falloff (sceneZ fadeRange : R) :
  0 < fadeRange ->
  (forall k : R,
      getSceneOpacity (sceneZ + k) sceneZ fadeRange
      = getSceneOpacity (sceneZ - k) sceneZ fadeRange)
  /\ (forall cameraZ : R, 0 <= getSceneOpacity cameraZ sceneZ fadeRange <= 1)
  /\ getSceneOpacity sceneZ sceneZ fadeRange = 1
  /\ (forall cameraZ : R,
        fadeRange <= Rabs (cameraZ - sceneZ) ->
        getSceneOpacity cameraZ sceneZ fadeRange = 0)
  /\ (forall cameraZ : R,
        Rabs (cameraZ - sceneZ) < fadeRange ->
        0 < getSceneOpacity cameraZ sceneZ fadeRange).
Proof.
  intros Hf. repeat split.
  - intros k. unfold getSceneOpacity; js_real.
    replace (sceneZ + k - sceneZ) with k by ring.
    replace (sceneZ - k - sceneZ) with (- k) by ring.
    rewrite Rabs_Ropp. reflexivity.
  - apply getSceneOpacity_range; exact Hf.
  - apply getSceneOpacity_range; exact Hf.
  - rewrite getSceneOpacity_inside
      by (replace (sceneZ - sceneZ) with 0 by ring; rewrite Rabs_R0; lra).
    replace (sceneZ - sceneZ) with 0 by ring. rewrite Rabs_R0.
    rewrite easeOutQuart_real. unfold Rdiv. rewrite Rmult_0_l. lra.
  - intros cameraZ Hd. destruct Hd as [Hlt | Heq].
    + apply getSceneOpacity_outside. exact Hlt.
    + rewrite getSceneOpacity_inside by lra.
      rewrite <- Heq. unfold Rdiv. rewrite Rinv_r by lra.
      rewrite easeOutQuart_real. lra.
  - intros cameraZ Hd. rewrite getSceneOpacity_inside by lra.
    pose proof (Rabs_pos (cameraZ - sceneZ)) as Hpos.
    set (d := Rabs (cameraZ - sceneZ)) in *.
    assert (Hq : 0 <= d / fadeRange < 1).
    { split.
      - apply (Rdiv_unit_interval d fadeRange Hf). lra.
      - apply (Rmult_lt_reg_r fadeRange); [exact Hf | ].
        unfold Rdiv. rewrite Rmult_assoc, Rinv_l by lra. lra. }
    rewrite easeOutQuart_real.
    replace (1 - (1 - d / fadeRange)) with (d / fadeRange) by ring.
    set (q := d / fadeRange) in *.
    assert (Hq2 : q * q < 1) by nra.
    assert (Hq2' : 0 <= q * q) by nra.
    replace (q * (q * (q * q))) with ((q * q) * (q * q)) by ring.
    nra.
Qed.

Lemma getSceneOpacity_falloff_witness :
  0 < 400 /\ getSceneOpacity 750 750 400 = 1.
Proof.
  split; [lra | ].
  apply (getSceneOpacity_falloff 750 400). lra.
Defined.

(** ** Damping over several frames *)

Lemma smoothDamp_zero_delta (current target smoothing : R) :
  smoothDamp current target smoothing 0 = current.
Proof.
  unfold smoothDamp. replace (- smoothing * 0 * 60) with 0 by ring.
  rewrite exp_0. ring.
Qed.

Lemma smoothDamp_compose (current target smoothing d1 d2 : R) :
  smoothDamp (smoothDamp current target smoothing d1) target smoothing d2
  = smoothDamp current target smoothing (d1 + d2).
Proof.
  unfold smoothDamp.
  replace (- smoothing * (d1 + d2) * 60)
    with (- smoothing * d1 * 60 + - smoothing * d2 * 60) by ring.
  rewrite exp_plus. ring.
Qed.

(** The remaining distance to the target after a step. *)
Lemma smoothDamp_remaining (current target smoothing delta : R) :
  smoothDamp current target smoothing delta - target
  = (current - target) * exp (- smoothing * delta * 60).
Proof. unfold smoothDamp. ring. Qed.

Lemma smoothDamp_between (current target smoothing delta lo hi : R) :
  0 <= smoothing * delta ->
  lo <= current <= hi -> lo <= target <= hi ->
  lo <= smoothDamp current target smoothing delta <= hi.
Proof.
  intros Hsd Hc Ht. unfold smoothDamp.
  set (e := exp (- smoothing * delta * 60)).
  assert (He0 : 0 < e) by apply exp_pos.
  assert (He1 : e <= 1).
  { unfold e. rewrite <- exp_0.
    destruct (Req_dec (smoothing * delta) 0) as [Hz | Hnz].
    - right. f_equal. nra.
    - left. apply exp_increasing. nra. }
  nra.
Qed.

(** X4. Damping is frame-rate independent: two consecutive [smoothDamp] steps
    toward the same target with the same rate are one step over the summed
    time, and [n] equal frames are one step over [n] times the frame time. *)
Theorem smoothDamp_frame_rate_independent
        (current target smoothing d1 d2 : R) (n : nat) :
  smoothDamp (smoothDamp current target smoothing d1) target smoothing d2
  = smoothDamp current target smoothing (d1 + d2)
  /\ dampFrames n current target smoothing d1
     = smoothDamp current target smoothing (INR n * d1).
Proof.
  split; [apply smoothDamp_compose | ].
  revert current. induction n as [| m IH]; intros current.
  - cbn [dampFrames INR]. rewrite Rmult_0_l.
    symmetry. apply smoothDamp_zero_delta.
  - cbn [dampFrames]. rewrite IH, smoothDamp_compose.
    f_equal. rewrite S_INR. ring.
Qed.

Lemma dampFrames_remaining (n : nat) (current target smoothing delta : R) :
  dampFrames n current target smoothing delta - target
  = (current - target) * exp (- (smoothing * delta * 60 * INR n)).
Proof.
  revert current. induction n as [| m IH]; intros current.
  - cbn [dampFrames INR]. rewrite Rmult_0_r, Ropp_0, exp_0. ring.
  - cbn [dampFrames]. rewrite IH, smoothDamp_remaining, S_INR.
    rewrite Rmult_assoc, <- exp_plus. f_equal. f_equal. ring.
Qed.

Lemma exp_neg_bound (x : R) : 0 <= x -> exp (- x) <= / (1 + x).
Proof.
  intros Hx. rewrite exp_Ropp.
  apply Rinv_le_contravar; [lra | ].
  destruct Hx as [Hpos | Hzero].
  - left. apply exp_ineq1. lra.
  - subst x. rewrite exp_0. lra.
Qed.

(** X5. Repeated damping converges: for a positive rate and frame time, and
    any tolerance, from some frame on the value fed back through [smoothDamp]
    stays within the tolerance of the target. *)
Theorem dampFrames_converges (current target smoothing delta eps : R) :
  0 < smoothing -> 0 < delta -> 0 < eps ->
  exists N : nat, forall n : nat, (N <= n)%nat ->
    Rabs (dampFrames n current target smoothing delta - target) < eps.
Proof.
  intros Hs Hd Heps.
  set (k := smoothing * delta * 60).
  assert (Hk : 0 < k) by (unfold k; nra).
  set (A := Rabs (current - target) / (eps * k)).
  assert (HA : 0 <= A).
  { unfold A. apply Rle_mult_inv_pos; [apply Rabs_pos | nra]. }
  destruct (archimed A) as [Hup _].
  exists (Z.to_nat (up A)). intros n Hn.
  assert (HupZ : (0 <= up A)%Z).
  { apply le_IZR. lra. }
  assert (HnA : A < INR n).
  { apply Rlt_le_trans with (IZR (up A)); [lra | ].
    rewrite <- (Z2Nat.id (up A)) by exact HupZ.
    rewrite <- INR_IZR_INZ. apply le_INR. exact Hn. }
  rewrite dampFrames_remaining. fold k.
  rewrite Rabs_mult, (Rabs_right (exp _)) by (left; apply exp_pos).
  assert (Hkn : 0 <= k * INR n) by (apply Rmult_le_pos; lra).
  pose proof (exp_neg_bound (k * INR n) Hkn) as Hexp.
  pose proof (Rabs_pos (current - target)) as Habs.
  assert (Hlin : Rabs (current - target) < eps * (k * INR n)).
  { assert (HAe : A * (eps * k) = Rabs (current - target)).
    { unfold A. field. nra. }
    rewrite <- HAe. replace (eps * (k * INR n)) with (INR n * (eps * k)) by ring.
    apply Rmult_lt_compat_r; [nra | exact HnA]. }
  apply Rle_lt_trans with (Rabs (current - target) * / (1 + k * INR n)).
  - apply Rmult_le_compat_l; assumption.
  - apply (Rmult_lt_reg_r (1 + k * INR n)); [lra | ].
    rewrite Rmult_assoc, Rinv_l by lra. nra.
Qed.

Lemma dampFrames_converges_witness :
  0 < 8 / 100 /\ 0 < 1 / 60 /\ 0 < 1 / 1000000
  /\ exists N : nat, forall n : nat, (N <= n)%nat ->
       Rabs (dampFrames n 0 7000 (8 / 100) (1 / 60) - 7000) < 1 / 1000000.
Proof.
  split; [lra | split; [lra | split; [lra | ]]].
  apply (dampFrames_converges 0 7000 (8 / 100) (1 / 60) (1 / 1000000)); lra.
Defined.

(** ** The shape of the pause-zone transform *)

(** X6. [applyScrollPauses] maps every non-negative raw progress into
    [[0,1]], fixes 0, saturates at 1 from raw progress 1 on, and below the
    first band it is the plain scaling by [effectiveScrollRange = 1.105]
    (so a negative raw progress is not clamped). *)
Theorem applyScrollPauses_envelope :
  (forall r : R, 0 <= r -> 0 <= applyScrollPauses r <= 1)
  /\ applyScrollPauses 0 = 0
  /\ (forall r : R, 1 <= r -> applyScrollPauses r = 1)
  /\ (forall r : R,
        r * (1105 / 1000) < 750 / 7000 - 1 / 100 ->
        applyScrollPauses r = r * (1105 / 1000)).
Proof.
  split; [exact applyScrollPauses_range | ].
  split; [exact applyScrollPauses_0 | ].
  split.
  - intros r Hr. eval_applyScrollPauses. reflexivity.
  - intros r Hr. eval_applyScrollPauses. lra.
Qed.

(** X7. Every configured zone holds the camera: for zone [j] (centre depth
    [750 + 1000 j], [j] zones already passed), while the scaled progress minus
    the pauses already spent stays in the holding band
    [[c + 0.0005, c + 0.0145]] the camera depth is exactly the zone's centre. *)
Theorem pause_zone_holds_center (j : nat) (r : R) :
  (j <= 6)%nat ->
  let c := (750 + 1000 * INR j) / 7000 in
  c + 5 / 10000
  <= scaledProgress PAUSE_ZONES r - 15 / 1000 * INR j
  <= c + 145 / 10000 ->
  applyScrollPauses r = c /\ applyScrollPauses r * 7000 = 750 + 1000 * INR j.
Proof.
  intros Hj c Hband.
  assert (E : applyScrollPauses r = c).
  { unfold c in *. clear c.
    unfold scaledProgress, PAUSE_ZONES in Hband. cbn [fold_left] in Hband.
    js_real.
    do 7 (destruct j as [| j]; [cbn [INR] in *; eval_applyScrollPauses; lra | ]).
    lia. }
  split; [exact E | rewrite E; unfold c; field].
Qed.

Lemma pause_zone_holds_center_witness :
  (3 <= 6)%nat
  /\ applyScrollPauses ((3750 / 7000 + 50 / 1000) / (1105 / 1000)) * 7000
     = 750 + 1000 * INR 3.
Proof.
  split; [lia | ].
  apply (pause_zone_holds_center 3 ((3750 / 7000 + 50 / 1000) / (1105 / 1000)));
    [lia | ].
  unfold scaledProgress, PAUSE_ZONES. cbn [fold_left INR]. js_real. lra.
Defined.

Lemma zonesOk_In (zones : list (PauseZone R)) : forall lo zone,
  zonesOk lo zones -> In zone zones -> lo <= pauseStart zone /\ zoneOk zone.
Proof.
  induction zones as [| h rest IH]; intros lo zone Hok Hin; [contradiction | ].
  destruct Hok as (Hlo & Hz & Hrest). destruct Hin as [<- | Hin].
  - split; assumption.
  - destruct (IH _ zone Hrest Hin) as [Hps Hzone].
    split; [ | exact Hzone]. unfold pauseStart in Hlo. lra.
Qed.

(** The loop never returns a value between the end of a zone's entering ramp
    and the zone's centre. *)
Lemma pauseLoop_gap (zones : list (PauseZone R)) : forall lo adj acc zone,
  zonesOk lo zones -> In zone zones ->
  ~ (pauseStart zone + (pauseEnd zone - pauseStart zone) * (9 / 100)
     <= pauseLoop zones adj acc
     < zoneProgressCenter zone).
Proof.
  induction zones as [| h rest IH]; intros lo adj acc zone Hok Hin;
    [contradiction | ].
  destruct Hok as (Hlo & Hh & Hrest).
  pose proof (zoneOk_band h Hh) as Hband.
  assert (Hps : pauseStart h = zoneProgressCenter h - 1 / 100) by reflexivity.
  assert (Hpe : pauseEnd h = zoneProgressCenter h + pauseAmount h + 1 / 100)
    by reflexivity.
  assert (Hpsz : pauseStart zone = zoneProgressCenter zone - 1 / 100)
    by reflexivity.
  assert (Hpez : pauseEnd zone
                 = zoneProgressCenter zone + pauseAmount zone + 1 / 100)
    by reflexivity.
  destruct Hh as [Hpa Hc1].
  assert (Hh : zoneOk h) by (split; assumption).
  assert (Hzone : (zone = h \/ In zone rest)) by (destruct Hin; auto).
  assert (Hrel : zone = h
                 \/ (zoneProgressCenter h + 1 / 100 <= pauseStart zone
                     /\ 0 <= pauseAmount zone /\ In zone rest)).
  { destruct Hzone as [-> | Hin']; [now left | right].
    destruct (zonesOk_In rest _ zone Hrest Hin') as [H1 [[H2 _] _]].
    repeat split; assumption. }
  destruct (zone_position h (adj - acc)) as [Hb | [Hi | Ha]].
  - rewrite pauseLoop_before by assumption.
    rewrite (pauseLoop_below rest (zoneProgressCenter h + 1 / 100))
      by (try assumption; lra).
    pose proof (Rmin_r 1 (adj - acc)) as Hmin.
    destruct Hrel as [-> | (H1 & H2 & _)]; lra.
  - rewrite pauseLoop_inside by assumption.
    destruct Hrel as [-> | (H1 & H2 & _)].
    + destruct (zoneValue_cases h adj acc (proj1 Hpa)) as [[Hd E] | [[Hd E] | [Hd E]]];
        rewrite E; clear E; cbv zeta in Hd.
      * lra.
      * lra.
      * set (q := (pauseEnd h - pauseStart h) * (3 / 10)) in *.
        set (n := adj - acc - pauseStart h - (pauseEnd h - pauseStart h) * (7 / 10)) in *.
        assert (Hq : 0 < q) by (unfold q; lra).
        assert (Hn : 0 <= n <= q) by (unfold n, q; lra).
        pose proof (Rdiv_unit_interval n q Hq Hn). lra.
    + pose proof (zoneValue_bounds h adj acc Hh Hi) as [_ Hv]. lra.
  - rewrite pauseLoop_after by assumption.
    destruct Hrel as [-> | (H1 & H2 & Hin')].
    + pose proof (pauseLoop_lower rest (zoneProgressCenter h + 1 / 100) adj
                    (acc + pauseAmount h) Hrest) as Hlow.
      assert (Hmin : zoneProgressCenter h <= Rmin 1 (zoneProgressCenter h + 1 / 100))
        by (apply Rmin_glb; lra).
      lra.
    + apply (IH (zoneProgressCenter h + 1 / 100)); assumption.
Qed.

(** X8. The camera never stops in the last 47.95 units before a pause zone's
    centre: for every configured zone, no raw progress is mapped to a depth
    in [[center - 47.95, center)] (the entering ramp ends there and the
    holding band starts at the centre, a forward jump). *)
Theorem applyScrollPauses_skips_before_center (zone : PauseZone R) (r : R) :
  In zone PAUSE_ZONES ->
  ~ (center zone - 4795 / 100 <= applyScrollPauses r * 7000 < center zone).
Proof.
  intros Hin Hgap.
  apply (pauseLoop_gap PAUSE_ZONES 0 (scaledProgress PAUSE_ZONES r) 0 zone
           PAUSE_ZONES_ok Hin).
  change (pauseLoop PAUSE_ZONES (scaledProgress PAUSE_ZONES r) 0)
    with (applyScrollPauses r).
  assert (Hpa : pauseAmount zone = 15 / 1000).
  { unfold PAUSE_ZONES in Hin. cbn [In] in Hin.
    repeat (destruct Hin as [<- | Hin]; [js_real; lra | ]). contradiction. }
  unfold pauseStart, pauseEnd, zoneProgressCenter. rewrite Hpa. lra.
Qed.

Lemma applyScrollPauses_skips_before_center_witness :
  In {| center := 750; pauseAmount := 15 / 1000 |} PAUSE_ZONES
  /\ ~ (750 - 4795 / 100 <= applyScrollPauses (1 / 10) * 7000 < 750).
Proof.
  assert (Hin : In {| center := 750; pauseAmount := 15 / 1000 |} PAUSE_ZONES)
    by (left; reflexivity).
  split; [exact Hin | ].
  exact (applyScrollPauses_skips_before_center _ (1 / 10) Hin).
Defined.

(** ** The section table as intervals *)

Ltac eval_index :=
  match goal with
  | |- context [indexOf ?s SECTIONS] =>
      let k := eval vm_compute in (indexOf s SECTIONS) in
      change (indexOf s SECTIONS) with k
  end.

(** X9. Section [k] of the table is stored exactly on a half-open interval of
    camera depth: its index [k] is at most 13, the depth is at least [500 k]
    unless [k] is the first section (open below), and below [500 (k + 1)]
    unless [k] is the last one (the catch-all). *)
Theorem sectionAt_interval (z : R) :
  let k := indexOf (sectionAt z) SECTIONS in
  (k <= 13)%nat
  /\ nth k SECTIONS ""%string = sectionAt z
  /\ ((1 <= k)%nat -> 500 * INR k <= z)
  /\ ((k < 13)%nat -> z < 500 * (INR k + 1)).
Proof.
  cbv zeta. unfold sectionAt; js_real.
  repeat (split_cmp; cbv iota);
    eval_index;
    (split; [lia | split; [reflexivity | split; intros Hk; cbn [INR]; try lia; lra]]).
Qed.

(** ** Windowed camera parameters *)

Lemma targetFovAt_cases (z : R) :
  (4100 <= z <= 4400
   /\ targetFovAt z = 50 + 30 * easeInOutCubic ((z - 4100) / 300))
  \/ (4400 < z < 4700
      /\ targetFovAt z = 80 - 30 * easeInOutCubic ((z - 4400) / 300))
  \/ ((z < 4100 \/ 4700 <= z) /\ targetFovAt z = 50).
Proof.
  unfold targetFovAt; js_real.
  repeat (split_cmp; cbn [andb]);
    first [ left; split; [lra | reflexivity]
          | right; left; split; [lra | reflexivity]
          | right; right; split; [lra | reflexivity] ].
Qed.

Lemma targetYAt_cases (z : R) :
  (5100 <= z <= 5400
   /\ targetYAt z = -500 * easeInOutCubic ((z - 5100) / 300))
  \/ (5400 < z /\ targetYAt z = -500)
  \/ (z < 5100 /\ targetYAt z = 0).
Proof.
  unfold targetYAt; js_real.
  repeat (split_cmp; cbn [andb]);
    first [ left; split; [lra | reflexivity]
          | right; left; split; [lra | reflexivity]
          | right; right; split; [lra | reflexivity] ].
Qed.

Lemma targetRotationZAt_cases (z : R) :
  (6300 <= z <= 6450
   /\ targetRotationZAt z = easeInOutCubic ((z - 6300) / 150) * PI * 2)
  \/ (6450 < z < 6600
      /\ targetRotationZAt z
         = PI * 2 * (1 - easeInOutCubic ((z - 6450) / 150)))
  \/ ((z < 6300 \/ 6600 <= z) /\ targetRotationZAt z = 0).
Proof.
  unfold targetRotationZAt; js_real.
  repeat (split_cmp; cbn [andb]);
    first [ left; split; [lra | reflexivity]
          | right; left; split; [lra | reflexivity]
          | right; right; split; [lra | reflexivity] ].
Qed.

Lemma targetFovAt_range (z : R) : 50 <= targetFovAt z <= 80.
Proof.
  destruct (targetFovAt_cases z) as [[Hz E] | [[Hz E] | [Hz E]]]; rewrite E.
  - pose proof (easeInOutCubic_range ((z - 4100) / 300)). lra.
  - pose proof (easeInOutCubic_range ((z - 4400) / 300)). lra.
  - lra.
Qed.

Lemma targetYAt_range (z : R) : -500 <= targetYAt z <= 0.
Proof.
  destruct (targetYAt_cases z) as [[Hz E] | [[Hz E] | [Hz E]]]; rewrite E.
  - pose proof (easeInOutCubic_range ((z - 5100) / 300)). lra.
  - lra.
  - lra.
Qed.

Lemma targetRotationZAt_range (z : R) : 0 <= targetRotationZAt z <= 2 * PI.
Proof.
  pose proof PI_RGT_0 as Hpi.
  destruct (targetRotationZAt_cases z) as [[Hz E] | [[Hz E] | [Hz E]]]; rewrite E.
  - pose proof (easeInOutCubic_range ((z - 6300) / 150)). nra.
  - pose proof (easeInOutCubic_range ((z - 6450) / 150)). nra.
  - lra.
Qed.

(** X10. Whatever the camera depth, the window targets stay in their
    envelopes: target FOV in [[50, 80]] with the peak 80 at depth 4400,
    target Y in [[-500, 0]], target roll in [[0, 2 pi]] with the full turn at
    depth 6450. *)
Theorem window_targets_envelope (z : R) :
  50 <= targetFovAt z <= 80
  /\ -500 <= targetYAt z <= 0
  /\ 0 <= targetRotationZAt z <= 2 * PI
  /\ targetFovAt 4400 = 80
  /\ targetRotationZAt 6450 = 2 * PI.
Proof.
  split; [apply targetFovAt_range | ].
  split; [apply targetYAt_range | ].
  split; [apply targetRotationZAt_range | ].
  split.
  - destruct (targetFovAt_cases 4400) as [[Hz E] | [[Hz E] | [Hz E]]];
      try lra.
    rewrite E. replace ((4400 - 4100) / 300) with 1 by lra.
    rewrite easeInOutCubic_1. lra.
  - destruct (targetRotationZAt_cases 6450) as [[Hz E] | [[Hz E] | [Hz E]]];
      try lra.
    rewrite E. replace ((6450 - 6300) / 150) with 1 by lra.
    rewrite easeInOutCubic_1. lra.
Qed.

(** X11. The falling target never rises again: target Y is non-increasing in
    the camera depth, from 0 before the window to -500 after it, with no
    jump at either end of the window. *)
Theorem targetYAt_non_increasing (z1 z2 : R) :
  z1 <= z2 ->
  targetYAt z2 <= targetYAt z1
  /\ targetYAt 5100 = 0
  /\ targetYAt 5400 = -500.
Proof.
  intros Hle. split; [ | split].
  - destruct (targetYAt_cases z1) as [[Hz1 E1] | [[Hz1 E1] | [Hz1 E1]]];
      destruct (targetYAt_cases z2) as [[Hz2 E2] | [[Hz2 E2] | [Hz2 E2]]];
      rewrite E1, E2; try lra.
    + assert (Harg : (z1 - 5100) / 300 <= (z2 - 5100) / 300) by lra.
      pose proof (easeInOutCubic_mono _ _ Harg). lra.
    + pose proof (easeInOutCubic_range ((z1 - 5100) / 300)). lra.
    + pose proof (easeInOutCubic_range ((z2 - 5100) / 300)). lra.
  - destruct (targetYAt_cases 5100) as [[Hz E] | [[Hz E] | [Hz E]]]; try lra.
    rewrite E. replace ((5100 - 5100) / 300) with 0 by lra.
    rewrite easeInOutCubic_0. lra.
  - destruct (targetYAt_cases 5400) as [[Hz E] | [[Hz E] | [Hz E]]]; try lra.
    rewrite E. replace ((5400 - 5100) / 300) with 1 by lra.
    rewrite easeInOutCubic_1. lra.
Qed.

Lemma targetYAt_non_increasing_witness :
  5200 <= 5300 /\ targetYAt 5300 <= targetYAt 5200.
Proof.
  split; [lra | ].
  apply (targetYAt_non_increasing 5200 5300). lra.
Defined.

(** ** The scroll handler along a scroll gesture *)

Lemma rawProgressOf_mono (el1 el2 : HTMLElement R) (viewportHeight : R) :
  offsetHeight el1 = offsetHeight el2 ->
  0 < offsetHeight el1 - viewportHeight ->
  rect_top el2 <= rect_top el1 ->
  rawProgressOf el1 viewportHeight <= rawProgressOf el2 viewportHeight.
Proof.
  intros Hh Hd Htop. unfold rawProgressOf; js_real. rewrite <- Hh.
  apply Rle_max_compat_l. apply Rle_min_compat_l.
  apply Rdiv_le_mono; [exact Hd | lra].
Qed.

Lemma rawProgressOf_before (el : HTMLElement R) (viewportHeight : R) :
  0 < offsetHeight el - viewportHeight -> 0 <= rect_top el ->
  rawProgressOf el viewportHeight = 0.
Proof.
  intros Hd Htop. unfold rawProgressOf; js_real.
  assert (Hq : - rect_top el / (offsetHeight el - viewportHeight) <= 0).
  { unfold Rdiv. apply Ropp_le_cancel. rewrite Ropp_0, <- Ropp_mult_distr_l.
    rewrite Ropp_involutive. apply Rle_mult_inv_pos; [ | exact Hd].
    lra. }
  rewrite Rmin_right by lra. apply Rmax_left. exact Hq.
Qed.

Lemma rawProgressOf_past (el : HTMLElement R) (viewportHeight : R) :
  0 < offsetHeight el - viewportHeight ->
  offsetHeight el - viewportHeight <= - rect_top el ->
  rawProgressOf el viewportHeight = 1.
Proof.
  intros Hd Htop. unfold rawProgressOf; js_real.
  assert (Hq : 1 <= - rect_top el / (offsetHeight el - viewportHeight)).
  { apply (Rmult_le_reg_r (offsetHeight el - viewportHeight)); [exact Hd | ].
    unfold Rdiv. rewrite Rmult_assoc, Rinv_l by lra. lra. }
  rewrite Rmin_left by exact Hq. apply Rmax_right. lra.
Qed.

(** X12. Scrolling down never moves the camera back: for a container with a
    positive scrollable distance, an invocation that sees the container
    scrolled further (a smaller [rect.top]) stores a camera depth at least as
    large, a section at least as far in the table, and a target Y at most as
    high, whatever the state before each invocation. *)
Theorem scrolling_down_moves_forward
        (env1 env2 : Env R) (w1 w2 : World R) (el1 el2 : HTMLElement R) :
  containerElement env1 = Some el1 ->
  containerElement env2 = Some el2 ->
  offsetHeight el1 = offsetHeight el2 ->
  innerHeight env1 = innerHeight env2 ->
  0 < offsetHeight el1 - innerHeight env1 ->
  rect_top el2 <= rect_top el1 ->
  cameraZ (scrollState (handleScroll env1 w1))
    <= cameraZ (scrollState (handleScroll env2 w2))
  /\ (indexOf (currentSection (scrollState (handleScroll env1 w1))) SECTIONS
      <= indexOf (currentSection (scrollState (handleScroll env2 w2))) SECTIONS)%nat
  /\ targetY (handleScroll env2 w2) <= targetY (handleScroll env1 w1).
Proof.
  intros H1 H2 Hh Hvh Hd Htop.
  destruct (handleScroll_present env1 w1 el1 H1)
    as (_ & Hz1 & Hs1 & _ & _ & _ & HY1 & _).
  destruct (handleScroll_present env2 w2 el2 H2)
    as (_ & Hz2 & Hs2 & _ & _ & _ & HY2 & _).
  rewrite Hz1, Hz2, Hs1, Hs2, HY1, HY2. js_real. rewrite <- Hvh.
  pose proof (rawProgressOf_mono el1 el2 (innerHeight env1) Hh Hd Htop) as Hraw.
  pose proof (applyScrollPausesOn_mono PAUSE_ZONES 0 _ _ PAUSE_ZONES_ok Hraw)
    as Hmono.
  fold (applyScrollPauses (rawProgressOf el1 (innerHeight env1))) in Hmono.
  fold (applyScrollPauses (rawProgressOf el2 (innerHeight env1))) in Hmono.
  assert (Hz : applyScrollPauses (rawProgressOf el1 (innerHeight env1)) * 7000
               <= applyScrollPauses (rawProgressOf el2 (innerHeight env1)) * 7000)
    by lra.
  split; [exact Hz | split].
  - apply sectionAt_index_mono. exact Hz.
  - destruct (targetYAt_cases
                (applyScrollPauses (rawProgressOf el1 (innerHeight env1)) * 7000))
      as [[Ha Ea] | [[Ha Ea] | [Ha Ea]]];
      destruct (targetYAt_cases
                  (applyScrollPauses (rawProgressOf el2 (innerHeight env1)) * 7000))
        as [[Hb Eb] | [[Hb Eb] | [Hb Eb]]];
      rewrite Ea, Eb; try lra.
    + match goal with
      | |- -500 * easeInOutCubic ?b <= -500 * easeInOutCubic ?a =>
          assert (Harg : a <= b) by lra;
          pose proof (easeInOutCubic_mono a b Harg)
      end. lra.
    + match goal with
      | |- _ <= -500 * easeInOutCubic ?a =>
          pose proof (easeInOutCubic_range a)
      end. lra.
    + match goal with
      | |- -500 * easeInOutCubic ?b <= _ =>
          pose proof (easeInOutCubic_range b)
      end. lra.
Qed.

Lemma scrolling_down_moves_forward_witness :
  let env1 : Env R := mountedEnv (-800) 4000 800 1000 in
  let env2 : Env R := mountedEnv (-1600) 4000 800 2000 in
  0 < 4000 - 800 /\ -1600 <= -800
  /\ cameraZ (scrollState (handleScroll env1 initialWorld))
     <= cameraZ (scrollState (handleScroll env2 initialWorld)).
Proof.
  intros env1 env2. split; [lra | split; [lra | ]].
  apply (scrolling_down_moves_forward env1 env2 initialWorld initialWorld
           _ _ eq_refl eq_refl eq_refl eq_refl);
    unfold env1, mountedEnv; cbn [offsetHeight innerHeight rect_top]; js_real; lra.
Defined.

(** X13. The ends of the timeline.  For a container with a positive
    scrollable distance: while its top has not reached the top of the
    viewport ([rect.top >= 0]) the handler stores progress 0, depth 0, section
    [portal] and the baseline targets; once it is scrolled through
    ([-rect.top >= scrollableDistance]) it stores progress 1, depth 7000,
    section [parody], target Y -500, FOV 50 and roll 0. *)
Theorem timeline_ends (env : Env R) (w : World R) (el : HTMLElement R) :
  containerElement env = Some el ->
  0 < offsetHeight el - innerHeight env ->
  let w' := handleScroll env w in
  (0 <= rect_top el ->
   progress (scrollState w') = 0 /\ cameraZ (scrollState w') = 0
   /\ currentSection (scrollState w') = "portal"%string
   /\ targetZ w' = 0 /\ targetY w' = 0 /\ targetFov w' = 50
   /\ targetRotationZ w' = 0)
  /\ (offsetHeight el - innerHeight env <= - rect_top el ->
      progress (scrollState w') = 1 /\ cameraZ (scrollState w') = 7000
      /\ currentSection (scrollState w') = "parody"%string
      /\ targetZ w' = 7000 /\ targetY w' = -500 /\ targetFov w' = 50
      /\ targetRotationZ w' = 0).
Proof.
  intros Hel Hd w'.
  destruct (handleScroll_present env w el Hel)
    as (Hp & Hz & Hs & _ & _ & HZ & HY & HF & HR).
  fold w' in Hp, Hz, Hs, HZ, HY, HF, HR.
  rewrite Hp, Hz, Hs, HZ, HY, HF, HR. js_real. split; intros Htop.
  - rewrite (rawProgressOf_before el (innerHeight env) Hd Htop).
    rewrite applyScrollPauses_0. replace (0 * 7000) with 0 by ring.
    pose proof (targets_outside_windows 0) as (HF0 & HY0 & _ & HR0).
    repeat split; try reflexivity.
    + decide_section.
    + apply HY0. lra.
    + apply HF0. lra.
    + apply HR0. lra.
  - rewrite (rawProgressOf_past el (innerHeight env) Hd Htop).
    rewrite applyScrollPauses_1. replace (1 * 7000) with 7000 by ring.
    pose proof (targets_outside_windows 7000) as (HF1 & _ & HY1 & HR1).
    repeat split; try reflexivity.
    + decide_section.
    + apply HY1. lra.
    + apply HF1. lra.
    + apply HR1. lra.
Qed.

Lemma timeline_ends_witness :
  let env : Env R := mountedEnv (-3200) 4000 800 1000 in
  0 < 4000 - 800
  /\ cameraZ (scrollState (handleScroll env initialWorld)) = 7000.
Proof.
  intros env. split; [lra | ].
  assert (Hd : 0 < offsetHeight {| rect_top := IZR (-3200); offsetHeight := IZR 4000 |}
                   - innerHeight env).
  { unfold env, mountedEnv; cbn [offsetHeight innerHeight]; js_real. lra. }
  apply (proj2 (timeline_ends env initialWorld _ eq_refl Hd)).
  unfold env, mountedEnv; cbn [offsetHeight innerHeight rect_top]; js_real. lra.
Defined.

(** X14. Velocity follows the scroll direction and is bounded by the time
    step: for two consecutive invocations [dt > 0] seconds apart on a
    container with a positive scrollable distance, [|velocity| * dt <= 1], and
    if the second sees the container scrolled further (same geometry, smaller
    [rect.top]) the velocity is not negative. *)
Theorem velocity_follows_scroll
        (env1 env2 : Env R) (w0 : World R) (el1 el2 : HTMLElement R) :
  containerElement env1 = Some el1 ->
  containerElement env2 = Some el2 ->
  0 < offsetHeight el1 - innerHeight env1 ->
  0 < offsetHeight el2 - innerHeight env2 ->
  0 < (performance_now env2 - performance_now env1) / 1000 ->
  let dt := (performance_now env2 - performance_now env1) / 1000 in
  let v := velocity (scrollState (handleScroll env2 (handleScroll env1 w0))) in
  Rabs v * dt <= 1
  /\ (offsetHeight el1 = offsetHeight el2 ->
      innerHeight env1 = innerHeight env2 ->
      rect_top el2 <= rect_top el1 ->
      0 <= v).
Proof.
  intros H1 H2 Hd1 Hd2 Hdt dt v.
  destruct (handleScroll_present env1 w0 el1 H1) as (_ & _ & _ & Hlp & Hlt & _).
  destruct (handleScroll_present env2 (handleScroll env1 w0) el2 H2)
    as (Hp2 & _).
  destruct (handleScroll_velocity env2 (handleScroll env1 w0) el2 H2) as [_ Hv].
  rewrite Hlt, Hlp, Hp2 in Hv. specialize (Hv Hdt). fold v dt in Hv.
  set (p1 := applyScrollPauses (rawProgressOf el1 (innerHeight env1))) in *.
  set (p2 := applyScrollPauses (rawProgressOf el2 (innerHeight env2))) in *.
  assert (Hr1 : 0 <= p1 <= 1)
    by (apply applyScrollPauses_range; apply rawProgressOf_range).
  assert (Hr2 : 0 <= p2 <= 1)
    by (apply applyScrollPauses_range; apply rawProgressOf_range).
  change (0 < dt) in Hdt. clearbody v dt.
  assert (Hvdt : v * dt = p2 - p1).
  { rewrite Hv. unfold Rdiv. rewrite Rmult_assoc, Rinv_l by lra. ring. }
  split.
  - rewrite <- (Rabs_right dt) by lra. rewrite <- Rabs_mult, Hvdt.
    apply Rabs_le. lra.
  - intros Hh Hvh Htop.
    assert (Hmono : p1 <= p2).
    { unfold p1, p2. rewrite <- Hvh.
      pose proof (rawProgressOf_mono el1 el2 (innerHeight env1) Hh Hd1 Htop)
        as Hraw.
      exact (applyScrollPausesOn_mono PAUSE_ZONES 0 _ _ PAUSE_ZONES_ok Hraw). }
    rewrite Hv. apply Rle_mult_inv_pos; lra.
Qed.

Lemma velocity_follows_scroll_witness :
  let env1 : Env R := mountedEnv (-800) 4000 800 1000 in
  let env2 : Env R := mountedEnv (-1600) 4000 800 2000 in
  0 < (performance_now env2 - performance_now env1) / 1000
  /\ Rabs (velocity (scrollState (handleScroll env2 (handleScroll env1 initialWorld))))
     * ((performance_now env2 - performance_now env1) / 1000) <= 1.
Proof.
  intros env1 env2.
  assert (Hdt : 0 < (performance_now env2 - performance_now env1) / 1000).
  { unfold env1, env2, mountedEnv; cbn [performance_now]; js_real. lra. }
  split; [exact Hdt | ].
  apply (velocity_follows_scroll env1 env2 initialWorld _ _ eq_refl eq_refl);
    [ | | exact Hdt];
    unfold env1, env2, mountedEnv; cbn [offsetHeight innerHeight]; js_real; lra.
Defined.

(** ** The camera controller over frames and scroll events *)

Lemma lerp_compose (c t k d1 d2 : R) :
  c + (t - c) * (1 - exp (- k * d1 * 60))
  + (t - (c + (t - c) * (1 - exp (- k * d1 * 60)))) * (1 - exp (- k * d2 * 60))
  = c + (t - c) * (1 - exp (- k * (d1 + d2) * 60)).
Proof.
  replace (- k * (d1 + d2) * 60) with (- k * d1 * 60 + - k * d2 * 60) by ring.
  rewrite exp_plus. ring.
Qed.

Lemma lerp_compose_y (c t k d1 d2 : R) :
  c + (t - c) * (1 - exp (- k * (7 / 10) * d1 * 60))
  + (t - (c + (t - c) * (1 - exp (- k * (7 / 10) * d1 * 60))))
    * (1 - exp (- k * (7 / 10) * d2 * 60))
  = c + (t - c) * (1 - exp (- k * (7 / 10) * (d1 + d2) * 60)).
Proof.
  replace (- k * (7 / 10) * (d1 + d2) * 60)
    with (- k * (7 / 10) * d1 * 60 + - k * (7 / 10) * d2 * 60) by ring.
  rewrite exp_plus. ring.
Qed.

(** The refs after a frame, as [smoothDamp] steps with the controller's
    rates. *)
Lemma cameraFrame_refs (delta : R) (w : World R) (r : Rig) :
  currentZ (cameraFrame delta w r)
  = smoothDamp (currentZ r) (targetZ w) (8 / 100) delta
  /\ currentY (cameraFrame delta w r)
     = smoothDamp (currentY r) (targetY w) (8 / 100 * (7 / 10)) delta
  /\ currentRotationZ (cameraFrame delta w r)
     = smoothDamp (currentRotationZ r) (targetRotationZ w) (6 / 100) delta
  /\ currentFov (cameraFrame delta w r)
     = smoothDamp (currentFov r) (targetFov w) (4 / 100) delta.
Proof.
  unfold cameraFrame, smoothDamp. cbv zeta.
  cbn [currentZ currentY currentRotationZ currentFov].
  split; [reflexivity | split; [ | split; reflexivity]].
  replace (- (8 / 100 * (7 / 10)) * delta * 60)
    with (- (8 / 100) * (7 / 10) * delta * 60) by ring.
  reflexivity.
Qed.

(** X15. The controller is frame-rate independent: with the targets left
    alone, two frames of [d1] and [d2] seconds leave the refs and the camera
    exactly where one frame of [d1 + d2] seconds does. *)
Theorem cameraFrame_frame_rate_independent (d1 d2 : R) (w : World R) (r : Rig) :
  cameraFrame d2 w (cameraFrame d1 w r) = cameraFrame (d1 + d2) w r.
Proof.
  unfold cameraFrame.
  cbn [currentZ currentY currentRotationZ currentFov camera isPerspective
       fov projectionFov].
  rewrite (lerp_compose (currentZ r) (targetZ w) (8 / 100) d1 d2).
  rewrite (lerp_compose_y (currentY r) (targetY w) (8 / 100) d1 d2).
  rewrite (lerp_compose (currentRotationZ r) (targetRotationZ w) (6 / 100) d1 d2).
  rewrite (lerp_compose (currentFov r) (targetFov w) (4 / 100) d1 d2).
  destruct (isPerspective (camera r)); reflexivity.
Qed.

Lemma handleScroll_targets_envelope (env : Env R) (w : World R) :
  inEnvelope (targetZ w) (targetY w) (targetFov w) (targetRotationZ w) ->
  inEnvelope (targetZ (handleScroll env w)) (targetY (handleScroll env w))
             (targetFov (handleScroll env w))
             (targetRotationZ (handleScroll env w)).
Proof.
  intros Hw. destruct (containerElement env) as [el | ] eqn:Hel.
  - destruct (handleScroll_present env w el Hel)
      as (_ & _ & _ & _ & _ & HZ & HY & HF & HR).
    rewrite HZ, HY, HF, HR. js_real.
    pose proof (applyScrollPauses_range (rawProgressOf el (innerHeight env))
                  (proj1 (rawProgressOf_range el (innerHeight env)))) as Hp.
    unfold inEnvelope.
    split; [lra | split; [apply targetYAt_range | split]];
      [apply targetFovAt_range | apply targetRotationZAt_range].
  - unfold handleScroll. rewrite Hel. exact Hw.
Qed.

Lemma cameraFrame_envelope (delta : R) (w : World R) (r : Rig) :
  0 <= delta ->
  inEnvelope (targetZ w) (targetY w) (targetFov w) (targetRotationZ w) ->
  inEnvelope (currentZ r) (currentY r) (currentFov r) (currentRotationZ r) ->
  inEnvelope (currentZ (cameraFrame delta w r)) (currentY (cameraFrame delta w r))
             (currentFov (cameraFrame delta w r))
             (currentRotationZ (cameraFrame delta w r)).
Proof.
  intros Hd (HtZ & HtY & HtF & HtR) (HcZ & HcY & HcF & HcR).
  destruct (cameraFrame_refs delta w r) as (EZ & EY & ER & EF).
  rewrite EZ, EY, ER, EF. unfold inEnvelope.
  split; [ | split; [ | split]];
    apply smoothDamp_between; try assumption; nra.
Qed.

Lemma cameraFrame_mirrors (delta : R) (w : World R) (r : Rig) :
  cameraMirrorsRefs (cameraFrame delta w r).
Proof.
  unfold cameraMirrorsRefs, cameraFrame.
  cbn [camera position_z position_y rotation_z fov projectionFov isPerspective
       currentZ currentY currentRotationZ currentFov].
  split; [reflexivity | split; [reflexivity | split; [reflexivity | ]]].
  intros Hp. rewrite Hp. split; reflexivity.
Qed.

Lemma step_invariant (s : System) (ev : Event) :
  eventOk ev ->
  inEnvelope (targetZ (world s)) (targetY (world s)) (targetFov (world s))
             (targetRotationZ (world s))
  /\ inEnvelope (currentZ (rig s)) (currentY (rig s)) (currentFov (rig s))
                (currentRotationZ (rig s))
  /\ cameraMirrorsRefs (rig s) ->
  inEnvelope (targetZ (world (step s ev))) (targetY (world (step s ev)))
             (targetFov (world (step s ev))) (targetRotationZ (world (step s ev)))
  /\ inEnvelope (currentZ (rig (step s ev))) (currentY (rig (step s ev)))
                (currentFov (rig (step s ev))) (currentRotationZ (rig (step s ev)))
  /\ cameraMirrorsRefs (rig (step s ev)).
Proof.
  intros Hev (Ht & Hc & Hm). destruct ev as [env | delta]; cbn [step world rig].
  - split; [now apply handleScroll_targets_envelope | split; assumption].
  - split; [assumption | split].
    + apply cameraFrame_envelope; assumption.
    + apply cameraFrame_mirrors.
Qed.

(** X16. Whatever the interleaving of scroll events (container unmounted, or
    with a non-zero scrollable distance) and frames (non-negative elapsed
    time) since mount, the targets and the damped refs stay inside the
    timeline's envelope (depth in [[0, 7000]], Y in [[-500, 0]], FOV in
    [[50, 80]], roll in [[0, 2 pi]]) and the camera shows the refs. *)
Theorem controller_stays_in_envelope (events : list Event) :
  Forall eventOk events ->
  let s := run events initialSystem in
  inEnvelope (targetZ (world s)) (targetY (world s)) (targetFov (world s))
             (targetRotationZ (world s))
  /\ inEnvelope (currentZ (rig s)) (currentY (rig s)) (currentFov (rig s))
                (currentRotationZ (rig s))
  /\ cameraMirrorsRefs (rig s).
Proof.
  intros Hok. cbv zeta. unfold run.
  assert (Hinit :
            inEnvelope (targetZ (world initialSystem)) (targetY (world initialSystem))
                       (targetFov (world initialSystem))
                       (targetRotationZ (world initialSystem))
            /\ inEnvelope (currentZ (rig initialSystem)) (currentY (rig initialSystem))
                          (currentFov (rig initialSystem))
                          (currentRotationZ (rig initialSystem))
            /\ cameraMirrorsRefs (rig initialSystem)).
  { pose proof PI_RGT_0 as Hpi.
    unfold initialSystem, initialWorld, initialRig, inEnvelope, cameraMirrorsRefs.
    cbn [world rig targetZ targetY targetFov targetRotationZ currentZ currentY
         currentFov currentRotationZ camera position_z position_y rotation_z
         fov projectionFov isPerspective].
    js_real. repeat split; try reflexivity; lra. }
  revert Hinit. generalize initialSystem.
  induction Hok as [| ev rest Hev Hrest IH]; intros s Hs; cbn [fold_left].
  - exact Hs.
  - apply IH. apply step_invariant; assumption.
Qed.

Lemma controller_stays_in_envelope_witness :
  let events :=
    [ ScrollEvent (mountedEnv (-1600) 4000 800 1000); FrameEvent (1 / 60);
      ScrollEvent (unmountedEnv 800 1500); FrameEvent (1 / 30) ] in
  Forall eventOk events
  /\ cameraMirrorsRefs (rig (run events initialSystem)).
Proof.
  intros events.
  assert (Hok : Forall eventOk events).
  { unfold events. repeat constructor; cbn; lra. }
  split; [exact Hok | ].
  exact (proj2 (proj2 (controller_stays_in_envelope events Hok))).
Defined.

(** ** The particle system while visible *)

Local Open Scope list_scope.

Lemma stepParticle_box (spread delta : R) (p : Particle) :
  0 <= spread -> inBox spread (stepParticle spread delta p).
Proof.
  intros Hs. unfold inBox, stepParticle. cbn [position vx vy].
  split.
  - destruct (Rltb_cases (spread / 2) (vx (position p) + vx (pvelocity p) * delta))
      as [[H1 E1] | [H1 E1]]; rewrite E1.
    + rewrite Rltb_false by lra. lra.
    + destruct (Rltb_cases (vx (position p) + vx (pvelocity p) * delta)
                  (- spread / 2)) as [[H2 E2] | [H2 E2]]; rewrite E2; lra.
  - destruct (Rltb_cases (spread / 2) (vy (position p) + vy (pvelocity p) * delta))
      as [[H1 E1] | [H1 E1]]; rewrite E1.
    + rewrite Rltb_false by lra. lra.
    + destruct (Rltb_cases (vy (position p) + vy (pvelocity p) * delta)
                  (- spread / 2)) as [[H2 E2] | [H2 E2]]; rewrite E2; lra.
Qed.

Lemma forEachParticle_fst (props : ParticleSystemProps) (delta : R)
      (ps : list Particle) : forall (i : nat) (buf : list Matrix4),
  fst (forEachParticle props delta i ps buf)
  = List.map (stepParticle (spread props) delta) ps.
Proof.
  induction ps as [| p rest IH]; intros i buf; cbn [forEachParticle map].
  - reflexivity.
  - specialize (IH (S i)
                  (setMatrixAt i
                     (dummyMatrix (position (stepParticle (spread props) delta p))
                        (scale (stepParticle (spread props) delta p) * size props))
                     buf)).
    destruct (forEachParticle props delta (S i) rest _) as [rest' buf''].
    cbn [fst] in *. now rewrite IH.
Qed.

Lemma setMatrixAt_app (m x : Matrix4) (pre rest : list Matrix4) :
  setMatrixAt (List.length pre) m (pre ++ x :: rest) = pre ++ m :: rest.
Proof.
  induction pre as [| y pre IH]; cbn [List.length app setMatrixAt].
  - reflexivity.
  - now rewrite IH.
Qed.

Lemma forEachParticle_snd (props : ParticleSystemProps) (delta : R)
      (ps : list Particle) : forall (pre rest : list Matrix4),
  (List.length ps <= List.length rest)%nat ->
  snd (forEachParticle props delta (List.length pre) ps (pre ++ rest))
  = pre
    ++ List.map (matrixOfParticle (size props))
         (List.map (stepParticle (spread props) delta) ps)
    ++ List.skipn (List.length ps) rest.
Proof.
  induction ps as [| p ps' IH]; intros pre rest Hlen;
    cbn [forEachParticle List.map List.length List.skipn app].
  - reflexivity.
  - destruct rest as [| x rest']; [cbn [List.length] in Hlen; lia | ].
    cbn [List.length] in Hlen. cbn [List.skipn].
    rewrite setMatrixAt_app.
    set (m := dummyMatrix (position (stepParticle (spread props) delta p))
                (scale (stepParticle (spread props) delta p) * size props)).
    specialize (IH (pre ++ [m]) rest' ltac:(lia)).
    rewrite length_app in IH. cbn [List.length] in IH.
    rewrite Nat.add_1_r in IH.
    rewrite <- app_assoc in IH. cbn [app] in IH.
    destruct (forEachParticle props delta (S (List.length pre)) ps' (pre ++ m :: rest'))
      as [rest'' buf''].
    cbn [snd] in *. rewrite IH. rewrite <- app_assoc. reflexivity.
Qed.

Lemma particleFrame_visible (props : ParticleSystemProps) (cameraZ delta : R)
      (st : ParticleSystemState) (mesh : InstancedMesh) (material : Material) :
  meshRef st = Some mesh ->
  materialRef st = Some material ->
  1 / 100
  < smoothDamp (currentOpacity st) (particleTargetOpacity props cameraZ) (1 / 10) delta ->
  particles (particleFrame props cameraZ delta st)
  = List.map (stepParticle (spread props) delta) (particles st)
  /\ meshRef (particleFrame props cameraZ delta st)
     = Some {| visible := true;
               instanceMatrices :=
                 snd (forEachParticle props delta 0 (particles st)
                        (instanceMatrices mesh));
               needsUpdate := true |}.
Proof.
  intros Hmesh Hmat Hop. unfold particleFrame.
  rewrite Hmesh, Hmat. rewrite Rltb_true by exact Hop. cbn [negb].
  pose proof (forEachParticle_fst props delta (particles st) 0
                (instanceMatrices mesh)) as Hfst.
  destruct (forEachParticle props delta 0 (particles st) (instanceMatrices mesh))
    as [ps buf].
  cbn [fst snd particles meshRef] in *. rewrite Hfst. split; reflexivity.
Qed.

(** X17. While the system is visible the wrap-around keeps every particle in
    the box: after the frame each particle has [x] and [y] within
    [[-spread/2, spread/2]] (for a non-negative spread), however far its
    velocity would have carried it; the particle count, velocities and scales
    are unchanged, and [z] is never wrapped: it advances by
    [velocity.z * delta]. *)
Theorem particles_stay_in_box
        (props : ParticleSystemProps) (cameraZ delta : R)
        (st : ParticleSystemState) (mesh : InstancedMesh) (material : Material) :
  meshRef st = Some mesh ->
  materialRef st = Some material ->
  1 / 100
  < smoothDamp (currentOpacity st) (particleTargetOpacity props cameraZ) (1 / 10) delta ->
  0 <= spread props ->
  let st' := particleFrame props cameraZ delta st in
  Forall (inBox (spread props)) (particles st')
  /\ List.length (particles st') = List.length (particles st)
  /\ List.map pvelocity (particles st') = List.map pvelocity (particles st)
  /\ List.map scale (particles st') = List.map scale (particles st)
  /\ List.map (fun p => vz (position p)) (particles st')
     = List.map (fun p => vz (position p) + vz (pvelocity p) * delta) (particles st).
Proof.
  intros Hmesh Hmat Hop Hs st'.
  destruct (particleFrame_visible props cameraZ delta st mesh material
              Hmesh Hmat Hop) as [Hps _].
  fold st' in Hps. rewrite Hps. repeat split.
  - apply Forall_forall. intros p Hin. apply in_map_iff in Hin.
    destruct Hin as (q & <- & _). apply stepParticle_box. exact Hs.
  - apply length_map.
  - rewrite map_map. reflexivity.
  - rewrite map_map. reflexivity.
  - rewrite map_map. reflexivity.
Qed.

(** X18. While the system is visible the instance buffer mirrors the
    particles: with at least as many instance slots as particles, after the
    frame slot [i] holds the matrix of the moved particle [i] (its position,
    uniform scale [scale * size], no rotation), the slots past the last
    particle are untouched, and the buffer is flagged for upload. *)
Theorem instance_buffer_mirrors_particles
        (props : ParticleSystemProps) (cameraZ delta : R)
        (st : ParticleSystemState) (mesh : InstancedMesh) (material : Material) :
  meshRef st = Some mesh ->
  materialRef st = Some material ->
  1 / 100
  < smoothDamp (currentOpacity st) (particleTargetOpacity props cameraZ) (1 / 10) delta ->
  (List.length (particles st) <= List.length (instanceMatrices mesh))%nat ->
  let st' := particleFrame props cameraZ delta st in
  meshRef st'
  = Some {| visible := true;
            instanceMatrices :=
              List.map (matrixOfParticle (size props)) (particles st')
              ++ List.skipn (List.length (particles st)) (instanceMatrices mesh);
            needsUpdate := true |}.
Proof.
  intros Hmesh Hmat Hop Hlen st'.
  destruct (particleFrame_visible props cameraZ delta st mesh material
              Hmesh Hmat Hop) as [Hps Hm].
  fold st' in Hps, Hm. rewrite Hm, Hps.
  pose proof (forEachParticle_snd props delta (particles st) []
                (instanceMatrices mesh) Hlen) as Hsnd.
  cbn [List.length app] in Hsnd. rewrite Hsnd. reflexivity.
Qed.

Lemma particleTargetOpacity_range (props : ParticleSystemProps) (cameraZ : R) :
  0 <= baseOpacity props ->
  0 <= particleTargetOpacity props cameraZ <= baseOpacity props.
Proof.
  intros Hb. unfold particleTargetOpacity.
  set (d := Rabs (cameraZ - (zStart props + zEnd props) / 2)).
  set (range := (zEnd props - zStart props) / 2 + 400).
  assert (Hd : 0 <= d) by apply Rabs_pos.
  destruct (Rltb_cases d range) as [[Hlt E] | [Hge E]]; rewrite E.
  - assert (Hr : 0 < range) by lra.
    pose proof (Rdiv_unit_interval d range Hr (conj Hd (Rlt_le _ _ Hlt))) as Hq.
    pose proof (easeOutQuart_range (1 - d / range)) as He.
    assert (He' : 0 <= easeOutQuart (1 - d / range) <= 1) by (apply He; lra).
    nra.
  - lra.
Qed.

(** X19. The particle system's opacity never leaves [[0, baseOpacity]]: with
    the refs mounted, a non-negative frame time and a non-negative base
    opacity, a damped opacity that is in the interval stays in it, the
    material shows it, and the mesh is visible exactly when it exceeds
    0.01. *)
Theorem particle_opacity_invariant
        (props : ParticleSystemProps) (cameraZ delta : R)
        (st : ParticleSystemState) (mesh : InstancedMesh) (material : Material) :
  meshRef st = Some mesh ->
  materialRef st = Some material ->
  0 <= delta ->
  0 <= baseOpacity props ->
  0 <= currentOpacity st <= baseOpacity props ->
  let st' := particleFrame props cameraZ delta st in
  0 <= currentOpacity st' <= baseOpacity props
  /\ materialRef st' = Some {| opacity := currentOpacity st' |}
  /\ exists mesh', meshRef st' = Some mesh'
       /\ (visible mesh' = true <-> 1 / 100 < currentOpacity st').
Proof.
  intros Hmesh Hmat Hd Hb Hc st'.
  set (o := smoothDamp (currentOpacity st) (particleTargetOpacity props cameraZ)
              (1 / 10) delta).
  assert (Ho : 0 <= o <= baseOpacity props).
  { apply smoothDamp_between;
      [nra | exact Hc | apply particleTargetOpacity_range; exact Hb]. }
  destruct (Rltb_cases (1 / 100) o) as [[Hv E] | [Hv E]].
  - destruct (particleFrame_visible props cameraZ delta st mesh material
                Hmesh Hmat Hv) as [_ Hm].
    assert (Hop : currentOpacity st' = o /\ materialRef st' = Some {| opacity := o |}).
    { unfold st', particleFrame. rewrite Hmesh, Hmat. fold o. rewrite E.
      cbn [negb].
      destruct (forEachParticle props delta 0 (particles st) (instanceMatrices mesh)).
      split; reflexivity. }
    destruct Hop as [Hop Hmt]. rewrite Hop.
    split; [exact Ho | split; [exact Hmt | ]].
    eexists. split; [exact Hm | ]. cbn [visible]. tauto.
  - assert (Hop : currentOpacity st' = o
                  /\ materialRef st' = Some {| opacity := o |}
                  /\ meshRef st'
                     = Some {| visible := false;
                               instanceMatrices := instanceMatrices mesh;
                               needsUpdate := needsUpdate mesh |}).
    { unfold st', particleFrame. rewrite Hmesh, Hmat. fold o. rewrite E.
      cbn [negb]. repeat split. }
    destruct Hop as (Hop & Hmt & Hm). rewrite Hop.
    split; [exact Ho | split; [exact Hmt | ]].
    eexists. split; [exact Hm | ]. cbn [visible].
    split; [discriminate | lra].
Qed.

(** ** Curtain layers *)

Lemma smoothDamp_scale (k current target smoothing delta : R) :
  k * smoothDamp current target smoothing delta
  = smoothDamp (k * current) (k * target) smoothing delta.
Proof. unfold smoothDamp. ring. Qed.

Lemma stepLayer_mesh (cameraZ delta : R) (layer : CurtainLayer) :
  snd (stepLayer cameraZ delta layer)
  = meshOfLayer (fst (stepLayer cameraZ delta layer)).
Proof. reflexivity. Qed.

Lemma stepLayer_ok (cameraZ delta : R) (layer : CurtainLayer) :
  0 <= delta -> layerOk layer -> layerOk (fst (stepLayer cameraZ delta layer)).
Proof.
  intros Hd (Hdir & Hop & HX & HR & HO).
  unfold stepLayer, layerOk.
  cbn [fst direction openProgress currentX currentRotation layerOpacity].
  set (targetOpen :=
         if Rltb (layer_z layer - cameraZ) 120
            && Rltb (-150) (layer_z layer - cameraZ) then 1 else 0).
  assert (Hto : 0 <= targetOpen <= 1).
  { unfold targetOpen.
    destruct (Rltb (layer_z layer - cameraZ) 120
              && Rltb (-150) (layer_z layer - cameraZ)); lra. }
  set (op' := smoothDamp (openProgress layer) targetOpen (6 / 100) delta).
  assert (Hop' : 0 <= op' <= 1)
    by (apply smoothDamp_between; [nra | assumption | assumption]).
  assert (Hdd : direction layer * direction layer = 1)
    by (destruct Hdir as [-> | ->]; ring).
  split; [exact Hdir | split; [exact Hop' | split; [ | split]]].
  - rewrite smoothDamp_scale. apply smoothDamp_between; [nra | exact HX | ].
    replace (direction layer * (direction layer * op' * 600))
      with (direction layer * direction layer * (op' * 600)) by ring.
    rewrite Hdd. lra.
  - rewrite smoothDamp_scale. apply smoothDamp_between; [nra | exact HR | ].
    replace (direction layer * (direction layer * op' * (2 / 10)))
      with (direction layer * direction layer * (op' * (2 / 10))) by ring.
    rewrite Hdd. lra.
  - apply smoothDamp_between; [nra | exact HO | lra].
Qed.

Lemma forEachLayer_some (cameraZ delta : R) (children : list CurtainMesh) :
  forall layers : list CurtainLayer,
  (List.length children <= List.length layers)%nat ->
  exists cs ls,
    forEachLayer cameraZ delta children layers = Some (cs, ls)
    /\ List.length ls = List.length layers
    /\ cs = List.map meshOfLayer (List.firstn (List.length children) ls)
    /\ (0 <= delta -> Forall layerOk layers -> Forall layerOk ls).
Proof.
  induction children as [| child children' IH]; intros layers Hlen.
  - exists [], layers. cbn [forEachLayer List.length List.firstn List.map].
    repeat split; auto.
  - destruct layers as [| layer layers']; [cbn [List.length] in Hlen; lia | ].
    cbn [List.length] in Hlen.
    destruct (IH layers' ltac:(lia)) as (cs & ls & E & Hl & Hcs & Hok).
    exists (snd (stepLayer cameraZ delta layer) :: cs),
           (fst (stepLayer cameraZ delta layer) :: ls).
    cbn [forEachLayer]. destruct (stepLayer cameraZ delta layer) as [layer' child'] eqn:Es.
    rewrite E. cbn [fst snd List.length List.firstn List.map].
    repeat split.
    + now rewrite Hl.
    + rewrite <- Hcs. f_equal.
      pose proof (stepLayer_mesh cameraZ delta layer) as Hm.
      rewrite Es in Hm. exact Hm.
    + intros Hd Hall. inversion Hall as [| ? ? Hhead Htail]; subst.
      constructor; [ | now apply Hok].
      pose proof (stepLayer_ok cameraZ delta layer Hd Hhead) as Hs.
      rewrite Es in Hs. exact Hs.
Qed.

Lemma forEachLayer_none (cameraZ delta : R) (children : list CurtainMesh) :
  forall layers : list CurtainLayer,
  (List.length layers < List.length children)%nat ->
  forEachLayer cameraZ delta children layers = None.
Proof.
  induction children as [| child children' IH]; intros layers Hlen.
  - cbn [List.length] in Hlen. lia.
  - destruct layers as [| layer layers']; [reflexivity | ].
    cbn [List.length] in Hlen. cbn [forEachLayer].
    destruct (stepLayer cameraZ delta layer) as [layer' child'].
    rewrite IH by lia. reflexivity.
Qed.

Lemma curtain_window_cases (cameraZ : R) :
  ((cameraZ < 1900 \/ 2800 < cameraZ)
   /\ Rltb cameraZ 1900 || Rltb 2800 cameraZ = true)
  \/ (1900 <= cameraZ <= 2800
      /\ Rltb cameraZ 1900 || Rltb 2800 cameraZ = false).
Proof.
  destruct (Rltb_cases cameraZ 1900) as [[H1 E1] | [H1 E1]]; rewrite E1;
    destruct (Rltb_cases 2800 cameraZ) as [[H2 E2] | [H2 E2]]; rewrite E2;
    cbn [orb]; first [ left; split; [lra | reflexivity]
                     | right; split; [lra | reflexivity] ].
Qed.

(** X20. Edge behaviour of the curtain callback.  With the group unmounted it
    does nothing; with the camera outside [[1900, 2800]] it hides the group
    and leaves every layer and mesh as it was; it throws (reading [layer.z]
    of a missing layer) exactly when the group is mounted, the camera is
    inside the window and the group has more children than there are
    layers. *)
Theorem curtainFrame_edges (cameraZ delta : R) (st : CurtainState) :
  (layersRef st = None -> curtainFrame cameraZ delta st = Some st)
  /\ (forall group, layersRef st = Some group ->
        (cameraZ < 1900 \/ 2800 < cameraZ) ->
        curtainFrame cameraZ delta st
        = Some {| layersRef :=
                    Some {| group_visible := false;
                            group_children := group_children group |};
                  layerData := layerData st |})
  /\ (curtainFrame cameraZ delta st = None <->
      exists group, layersRef st = Some group
        /\ 1900 <= cameraZ <= 2800
        /\ (List.length (layerData st) < List.length (group_children group))%nat).
Proof.
  split; [ | split].
  - intros Hnone. unfold curtainFrame. rewrite Hnone. reflexivity.
  - intros group Hg Hout. unfold curtainFrame. rewrite Hg.
    destruct (curtain_window_cases cameraZ) as [[_ E] | [Hin _]]; [ | lra].
    rewrite E. reflexivity.
  - unfold curtainFrame. destruct (layersRef st) as [group | ].
    + destruct (curtain_window_cases cameraZ) as [[Hout E] | [Hin E]]; rewrite E.
      * split; [discriminate | ].
        intros (g & _ & Hwin & _). lra.
      * destruct (Nat.le_gt_cases (List.length (group_children group))
                    (List.length (layerData st))) as [Hle | Hgt].
        -- destruct (forEachLayer_some cameraZ delta _ _ Hle)
             as (cs & ls & E' & _).
           rewrite E'. split; [discriminate | ].
           intros (g & Hg & _ & Hlt). injection Hg as <-. lia.
        -- rewrite (forEachLayer_none cameraZ delta _ _ Hgt).
           split; [ | reflexivity].
           intros _. exists group. repeat split; try reflexivity; try lra.
           exact Hgt.
    + split; [discriminate | ]. intros (g & Hg & _). discriminate.
Qed.

Lemma initialLayerData_ok : Forall layerOk initialLayerData.
Proof.
  unfold initialLayerData. cbn [makeLayers Nat.even].
  repeat (apply Forall_cons;
          [ unfold layerOk;
            cbn [direction openProgress currentX currentRotation layerOpacity];
            split; [first [left; reflexivity | right; reflexivity] | lra]
          | ]).
  apply Forall_nil.
Qed.

(** X21. The curtain layers keep their design envelope.  The six layers
    start inside it, and a frame with a non-negative elapsed time that does
    not throw keeps every layer inside it (each opens toward its own side by
    at most 600 units and 0.2 radians, opacity between 0.09 and 0.3) and
    keeps their number; when the camera is inside the window the meshes show
    exactly the updated layers. *)
Theorem curtain_layers_invariant (cameraZ delta : R) (st st' : CurtainState) :
  0 <= delta ->
  Forall layerOk (layerData st) ->
  curtainFrame cameraZ delta st = Some st' ->
  Forall layerOk initialLayerData
  /\ Forall layerOk (layerData st')
  /\ List.length (layerData st') = List.length (layerData st)
  /\ (forall group, layersRef st = Some group ->
        1900 <= cameraZ <= 2800 ->
        layersRef st'
        = Some {| group_visible := true;
                  group_children :=
                    List.map meshOfLayer
                      (List.firstn (List.length (group_children group))
                         (layerData st')) |}).
Proof.
  intros Hd Hok Hrun. split; [exact initialLayerData_ok | ].
  unfold curtainFrame in Hrun. destruct (layersRef st) as [group | ] eqn:Hg.
  - destruct (curtain_window_cases cameraZ) as [[Hout E] | [Hin E]];
      rewrite E in Hrun.
    + injection Hrun as <-. cbn [layerData layersRef].
      split; [exact Hok | split; [reflexivity | ]].
      intros g _ Hwin. lra.
    + destruct (Nat.le_gt_cases (List.length (group_children group))
                  (List.length (layerData st))) as [Hle | Hgt].
      * destruct (forEachLayer_some cameraZ delta _ _ Hle)
          as (cs & ls & E' & Hl & Hcs & Hpres).
        rewrite E' in Hrun. injection Hrun as <-. cbn [layerData layersRef].
        split; [now apply Hpres | split; [exact Hl | ]].
        intros g Hg' _. injection Hg' as <-. rewrite Hcs. reflexivity.
      * rewrite (forEachLayer_none cameraZ delta _ _ Hgt) in Hrun.
        discriminate.
  - injection Hrun as <-.
    split; [exact Hok | split; [reflexivity | ]].
    intros g Hg'. discriminate.
Qed.

(** ** Checks on mounted components *)

Lemma sample_visible :
  1 / 100
  < smoothDamp (currentOpacity sampleParticleState)
      (particleTargetOpacity sampleProps 50) (1 / 10) (1 / 60).
Proof.
  assert (Ht : particleTargetOpacity sampleProps 50 = 6 / 10).
  { unfold particleTargetOpacity, sampleProps. cbn [zStart zEnd baseOpacity].
    replace (50 - (0 + 100) / 2) with 0 by lra. rewrite Rabs_R0.
    rewrite Rltb_true by lra. rewrite easeOutQuart_real. lra. }
  rewrite Ht. unfold smoothDamp, sampleParticleState. cbn [currentOpacity]. lra.
Qed.

Lemma particles_stay_in_box_witness :
  meshRef sampleParticleState = Some sampleMesh
  /\ 0 <= spread sampleProps
  /\ Forall (inBox (spread sampleProps))
       (particles (particleFrame sampleProps 50 (1 / 60) sampleParticleState)).
Proof.
  split; [reflexivity | ].
  assert (Hs : 0 <= spread sampleProps) by (cbn; lra).
  split; [exact Hs | ].
  exact (proj1 (particles_stay_in_box sampleProps 50 (1 / 60) sampleParticleState
                  sampleMesh {| opacity := 6 / 10 |} eq_refl eq_refl
                  sample_visible Hs)).
Defined.

Lemma instance_buffer_mirrors_particles_witness :
  (List.length (particles sampleParticleState)
   <= List.length (instanceMatrices sampleMesh))%nat
  /\ meshRef (particleFrame sampleProps 50 (1 / 60) sampleParticleState)
     = Some {| visible := true;
               instanceMatrices :=
                 List.map (matrixOfParticle (size sampleProps))
                   (particles (particleFrame sampleProps 50 (1 / 60)
                                 sampleParticleState))
                 ++ List.skipn (List.length (particles sampleParticleState))
                      (instanceMatrices sampleMesh);
               needsUpdate := true |}.
Proof.
  assert (Hlen : (List.length (particles sampleParticleState)
                  <= List.length (instanceMatrices sampleMesh))%nat)
    by (cbn; lia).
  split; [exact Hlen | ].
  exact (instance_buffer_mirrors_particles sampleProps 50 (1 / 60)
           sampleParticleState sampleMesh {| opacity := 6 / 10 |}
           eq_refl eq_refl sample_visible Hlen).
Defined.

Lemma particle_opacity_invariant_witness :
  0 <= 1 / 60
  /\ 0 <= baseOpacity sampleProps
  /\ 0 <= currentOpacity sampleParticleState <= baseOpacity sampleProps
  /\ 0 <= currentOpacity (particleFrame sampleProps 5000 (1 / 60) sampleParticleState)
     <= baseOpacity sampleProps.
Proof.
  assert (Hd : 0 <= 1 / 60) by lra.
  assert (Hb : 0 <= baseOpacity sampleProps) by (cbn; lra).
  assert (Hc : 0 <= currentOpacity sampleParticleState <= baseOpacity sampleProps)
    by (cbn; lra).
  split; [exact Hd | split; [exact Hb | split; [exact Hc | ]]].
  exact (proj1 (particle_opacity_invariant sampleProps 5000 (1 / 60)
                  sampleParticleState sampleMesh {| opacity := 6 / 10 |}
                  eq_refl eq_refl Hd Hb Hc)).
Defined.

Lemma mountedCurtains_frame :
  exists st',
    curtainFrame 2000 (1 / 60) mountedCurtains = Some st'.
Proof.
  unfold curtainFrame, mountedCurtains. cbn [layersRef group_children layerData].
  destruct (curtain_window_cases 2000) as [[Hout _] | [_ E]]; [lra | ].
  rewrite E.
  destruct (forEachLayer_some 2000 (1 / 60)
              (List.map meshOfLayer initialLayerData) initialLayerData)
    as (cs & ls & E' & _).
  { rewrite length_map. apply Nat.le_refl. }
  rewrite E'. eexists. reflexivity.
Qed.

Lemma curtain_layers_invariant_witness :
  let st' :=
    match curtainFrame 2000 (1 / 60) mountedCurtains with
    | Some s => s
    | None => mountedCurtains
    end in
  0 <= 1 / 60
  /\ Forall layerOk (layerData mountedCurtains)
  /\ curtainFrame 2000 (1 / 60) mountedCurtains = Some st'
  /\ Forall layerOk (layerData st').
Proof.
  intros st'.
  assert (Hd : 0 <= 1 / 60) by lra.
  assert (Hrun : curtainFrame 2000 (1 / 60) mountedCurtains = Some st').
  { unfold st'. destruct mountedCurtains_frame as [s E]. rewrite E. reflexivity. }
  split; [exact Hd | split; [exact initialLayerData_ok | split; [exact Hrun | ]]].
  exact (proj1 (proj2 (curtain_layers_invariant 2000 (1 / 60) mountedCurtains st'
                         Hd initialLayerData_ok Hrun))).
Defined.

(** ** Fade groups and the intro scene *)

Lemma materialsOf_fadeTraverse (o : R) (root : Object3D) :
  materialsOf (fadeTraverse o root)
  = List.map (fadeMaterial o) (materialsOf root).
Proof.
  induction root as [mesh children IH] using Object3D_children_ind.
  cbn [fadeTraverse materialsOf]. rewrite map_app. f_equal.
  - destruct mesh; reflexivity.
  - induction IH as [| c cs Hc _ IHcs]; cbn [List.map List.flat_map].
    + reflexivity.
    + rewrite map_app, Hc, IHcs. reflexivity.
Qed.

Lemma baseOpacityOr1_falsy (m : FadeMaterial) :
  userData_baseOpacity m = None \/ userData_baseOpacity m = Some 0 ->
  baseOpacityOr1 m = 1.
Proof.
  unfold baseOpacityOr1. intros [-> | ->]; [reflexivity | ].
  destruct (Req_dec_T 0 0) as [_ | Hne]; [reflexivity | contradiction Hne; reflexivity].
Qed.

Lemma baseOpacityOr1_truthy (m : FadeMaterial) (b : R) :
  userData_baseOpacity m = Some b -> b <> 0 -> baseOpacityOr1 m = b.
Proof.
  unfold baseOpacityOr1. intros -> Hb.
  destruct (Req_dec_T b 0) as [Hz | _]; [contradiction | reflexivity].
Qed.

(** X22. A mounted [FadeGroup] keeps its opacity in [[0,1]] (non-negative
    frame time, positive fade range) and, visible or not, rewrites the
    opacity of every mesh material of its subtree, in place: a material with
    a non-zero [userData.baseOpacity] gets [baseOpacity * opacity], one whose
    [baseOpacity] is absent or 0 gets the group's opacity itself; the group
    is visible exactly when the opacity exceeds 0.01. *)
Theorem fadeGroup_frame (sceneZ fadeRange cameraZ delta : R)
        (st : FadeGroupState) (group : FadeGroupObject) :
  groupRef st = Some group ->
  0 <= delta ->
  0 < fadeRange ->
  0 <= fadeOpacity st <= 1 ->
  let st' := fadeGroupFrame sceneZ fadeRange cameraZ delta st in
  let o' := fadeOpacity st' in
  0 <= o' <= 1
  /\ exists group',
       groupRef st' = Some group'
       /\ (fade_visible group' = true <-> 1 / 100 < o')
       /\ List.map userData_baseOpacity (materialsOf (fade_root group'))
          = List.map userData_baseOpacity (materialsOf (fade_root group))
       /\ Forall
            (fun m =>
               (forall b, userData_baseOpacity m = Some b -> b <> 0 ->
                          fade_opacity m = b * o')
               /\ (userData_baseOpacity m = None \/ userData_baseOpacity m = Some 0 ->
                   fade_opacity m = o'))
            (materialsOf (fade_root group')).
Proof.
  intros Hg Hd Hf Hc st' o'.
  set (o := smoothDamp (fadeOpacity st) (getSceneOpacity cameraZ sceneZ fadeRange)
              (12 / 100) delta).
  assert (Hst : st' = {| groupRef :=
                           Some {| fade_visible := Rltb (1 / 100) o;
                                   fade_root := fadeTraverse o (fade_root group) |};
                         fadeOpacity := o |}).
  { unfold st', fadeGroupFrame. rewrite Hg. reflexivity. }
  assert (Ho' : o' = o) by (unfold o'; rewrite Hst; reflexivity).
  rewrite Ho'. split.
  - apply smoothDamp_between;
      [nra | exact Hc | apply getSceneOpacity_range; exact Hf].
  - rewrite Hst. cbn [groupRef].
    eexists. split; [reflexivity | ]. cbn [fade_visible fade_root].
    split; [ | split].
    + destruct (Rltb_cases (1 / 100) o) as [[H E] | [H E]]; rewrite E.
      * tauto.
      * split; [discriminate | lra].
    + rewrite materialsOf_fadeTraverse, map_map. reflexivity.
    + rewrite materialsOf_fadeTraverse. apply Forall_forall.
      intros m Hin. apply in_map_iff in Hin. destruct Hin as (m0 & <- & _).
      cbn [fadeMaterial fade_opacity userData_baseOpacity]. split.
      * intros b Hb Hnz. now rewrite (baseOpacityOr1_truthy m0 b Hb Hnz).
      * intros Hfalsy. rewrite (baseOpacityOr1_falsy m0 Hfalsy). ring.
Qed.

Lemma fadeGroup_frame_witness :
  0 <= 1 / 60 /\ 0 < 500
  /\ 0 <= fadeOpacity sampleFadeGroup <= 1
  /\ 0 <= fadeOpacity (fadeGroupFrame 750 500 700 (1 / 60) sampleFadeGroup) <= 1.
Proof.
  assert (Hd : 0 <= 1 / 60) by lra.
  assert (Hf : 0 < 500) by lra.
  assert (Hc : 0 <= fadeOpacity sampleFadeGroup <= 1) by (cbn; lra).
  split; [exact Hd | split; [exact Hf | split; [exact Hc | ]]].
  exact (proj1 (fadeGroup_frame 750 500 700 (1 / 60) sampleFadeGroup _
                  eq_refl Hd Hf Hc)).
Defined.

Lemma easeOutQuart_mono (t1 t2 : R) :
  t1 <= t2 -> t2 <= 1 -> easeOutQuart t1 <= easeOutQuart t2.
Proof.
  intros Hle H1. rewrite !easeOutQuart_real.
  pose proof (fourth_le (1 - t1) (1 - t2)). lra.
Qed.

(** X23. The intro title's target opacity is 1 at depth 0, never increases
    as the camera advances from there, stays in [[0,1]] and is 0 from depth
    300 on, with no jump at 300; behind the start (negative depth) it is not
    clamped and exceeds 1. *)
Theorem introTargetOpacity_fades_out (z1 z2 : R) :
  0 <= z1 -> z1 <= z2 ->
  introTargetOpacity z2 <= introTargetOpacity z1
  /\ 0 <= introTargetOpacity z2
  /\ introTargetOpacity z1 <= 1
  /\ introTargetOpacity 0 = 1
  /\ (300 <= z2 -> introTargetOpacity z2 = 0)
  /\ (forall z : R, z < 0 -> 1 < introTargetOpacity z).
Proof.
  intros H0 Hle.
  assert (Hin : forall z, 0 <= z < 300 ->
                  introTargetOpacity z = 1 - easeOutQuart (z / 300)
                  /\ 0 <= easeOutQuart (z / 300) <= 1).
  { intros z Hz. unfold introTargetOpacity. rewrite Rltb_true by lra.
    split; [reflexivity | apply easeOutQuart_range; lra]. }
  assert (Hout : forall z, 300 <= z -> introTargetOpacity z = 0).
  { intros z Hz. unfold introTargetOpacity. rewrite Rltb_false by lra.
    reflexivity. }
  assert (Hrange : forall z, 0 <= z -> 0 <= introTargetOpacity z <= 1).
  { intros z Hz. destruct (Rlt_le_dec z 300) as [Hlt | Hge].
    - destruct (Hin z (conj Hz Hlt)) as [E Hr]. rewrite E. lra.
    - rewrite (Hout z Hge). lra. }
  split; [ | split; [apply Hrange; lra | split; [apply Hrange; lra | split; [ | split]]]].
  - destruct (Rlt_le_dec z2 300) as [Hlt2 | Hge2].
    + destruct (Hin z1 ltac:(lra)) as [E1 _].
      destruct (Hin z2 ltac:(lra)) as [E2 _]. rewrite E1, E2.
      pose proof (easeOutQuart_mono (z1 / 300) (z2 / 300)). lra.
    + rewrite (Hout z2 Hge2). apply Hrange. exact H0.
  - destruct (Hin 0 ltac:(lra)) as [E _]. rewrite E, easeOutQuart_real. lra.
  - exact (Hout z2).
  - intros z Hz. unfold introTargetOpacity. rewrite Rltb_true by lra.
    rewrite easeOutQuart_real.
    set (a := 1 - z / 300). assert (Ha : 1 < a) by (unfold a; lra).
    assert (Ha2 : 1 < a * a) by nra.
    replace (a * (a * (a * a))) with ((a * a) * (a * a)) by ring.
    nra.
Qed.

Lemma introTargetOpacity_fades_out_witness :
  0 <= 100 /\ 100 <= 200
  /\ introTargetOpacity 200 <= introTargetOpacity 100.
Proof.
  split; [lra | split; [lra | ]].
  apply (introTargetOpacity_fades_out 100 200); lra.
Defined.
